(** * flipboard-scraper: a model of [pkg/scraper.go] and its properties

    The development embeds the magazine scraper of [pkg/scraper.go]:
    the text normalisation [cleanText], the single-URL scrape [scrapeURL]
    running on the shared collector, and the concurrent driver
    [ScrapeURLs] with its rate limiter and error group.  Library code the
    scraper calls (the Go [strings], [unicode/utf8], [context],
    [errgroup], [rate] and [colly] packages) is modelled by its documented
    behaviour, each piece next to the call that uses it. *)

From Stdlib Require Import String Ascii NArith ZArith QArith DecimalString Lia.
From stdpp Require Import base list strings.

(** ** Go strings

    A Go string is a sequence of bytes; [string] (a list of [ascii]) is
    exactly that.  The functions of package [strings] that the scraper
    uses decode the bytes as UTF-8, so the decoder comes first. *)

Module utf8.

Definition code (b : ascii) : N := N_of_ascii b.

Definition RuneError : N := 0xFFFD.

Definition between (lo hi x : N) : bool := (lo <=? x)%N && (x <=? hi)%N.

(** Continuation bytes are [10xxxxxx]. *)
Definition cont (b : ascii) : bool := between 0x80 0xBF (code b).

(** The range accepted for the second byte of a three-byte and of a
    four-byte sequence, by leading byte ([acceptRanges] of the Go
    source). *)
Definition second3 (x y : N) : bool :=
  if (x =? 0xE0)%N then between 0xA0 0xBF y
  else if (x =? 0xED)%N then between 0x80 0x9F y
  else between 0x80 0xBF y.

Definition second4 (x y : N) : bool :=
  if (x =? 0xF0)%N then between 0x90 0xBF y
  else if (x =? 0xF4)%N then between 0x80 0x8F y
  else between 0x80 0xBF y.

(** [utf8.DecodeRuneInString]: the first rune of [p] and its width in
    bytes; an invalid or truncated encoding yields [(RuneError, 1)],
    the empty string [(RuneError, 0)]. *)
Definition DecodeRune (p : list ascii) : N * nat :=
  match p with
  | [] => (RuneError, 0)
  | b0 :: p1 =>
    let x := code b0 in
    if (x <? 0x80)%N then (x, 1)
    else if between 0xC2 0xDF x then
      match p1 with
      | b1 :: _ =>
        if cont b1
        then (((x - 0xC0) * 64 + (code b1 - 0x80))%N, 2)
        else (RuneError, 1)
      | _ => (RuneError, 1)
      end
    else if between 0xE0 0xEF x then
      match p1 with
      | b1 :: b2 :: _ =>
        if second3 x (code b1) && cont b2
        then (((x - 0xE0) * 4096 + (code b1 - 0x80) * 64
               + (code b2 - 0x80))%N, 3)
        else (RuneError, 1)
      | _ => (RuneError, 1)
      end
    else if between 0xF0 0xF4 x then
      match p1 with
      | b1 :: b2 :: b3 :: _ =>
        if second4 x (code b1) && cont b2 && cont b3
        then (((x - 0xF0) * 262144 + (code b1 - 0x80) * 4096
               + (code b2 - 0x80) * 64 + (code b3 - 0x80))%N, 4)
        else (RuneError, 1)
      | _ => (RuneError, 1)
      end
    else (RuneError, 1)
  end.

(** [utf8.RuneStart]: the byte could begin a rune (it is not a
    continuation byte). *)
Definition RuneStart (b : ascii) : bool := negb (cont b).

(** The backwards scan of [utf8.DecodeLastRuneInString].  [back] holds
    the bytes before the last one, nearest first, and [acc] the bytes
    from the candidate start to the end; the scan looks at no more than
    [n] further bytes and stops at the first that can start a rune, or,
    failing that, leaves the start one byte beyond the limit (or at the
    beginning of the string). *)
Fixpoint backtrack (n : nat) (back acc : list ascii) : list ascii :=
  match n, back with
  | S n', b :: back' =>
    if RuneStart b then b :: acc else backtrack n' back' (b :: acc)
  | O, b :: _ => b :: acc
  | _, [] => acc
  end.

(** [utf8.DecodeLastRuneInString]: the last rune of [p] and its width. *)
Definition DecodeLastRune (p : list ascii) : N * nat :=
  match rev p with
  | [] => (RuneError, 0)
  | l :: back =>
    if (code l <? 0x80)%N then (code l, 1)
    else
      let tail := backtrack 3 back [l] in
      let '(r, size) := DecodeRune tail in
      if Nat.eqb size (length tail) then (r, size) else (RuneError, 1)
  end.

End utf8.

Module unicode.

Import utf8.

(** [unicode.IsSpace]: in Latin-1 the six ASCII controls and blanks,
    U+0085 and U+00A0; beyond it the [White_Space] table. *)
Definition IsSpace (r : N) : bool :=
  if (r <=? 0xFF)%N then
    between 0x09 0x0D r || (r =? 0x20)%N || (r =? 0x85)%N || (r =? 0xA0)%N
  else
    (r =? 0x1680)%N || between 0x2000 0x200A r
    || (r =? 0x2028)%N || (r =? 0x2029)%N || (r =? 0x202F)%N
    || (r =? 0x205F)%N || (r =? 0x3000)%N.

End unicode.

Module strings.

Import utf8 unicode.

(** What [for i, r := range s] yields: the runes of [p] from left to
    right, each with the bytes that encode it.  Every step consumes at
    least one byte, so [length p] steps suffice. *)
Fixpoint rangeLoop (fuel : nat) (p : list ascii) : list (N * list ascii) :=
  match fuel, p with
  | S n, _ :: _ =>
    let '(r, size) := DecodeRune p in
    (r, take size p) :: rangeLoop n (drop size p)
  | _, _ => []
  end.

Definition runes (p : list ascii) : list (N * list ascii) :=
  rangeLoop (length p) p.

(** The loop of [strings.FieldsFunc]: [cur] is the span under
    construction ([start >= 0] in the source exactly when [cur] is not
    empty); a rune satisfying [f] closes it. *)
Definition flush (cur : list ascii) : list (list ascii) :=
  match cur with [] => [] | _ => [cur] end.

Fixpoint spans (f : N -> bool) (cur : list ascii)
    (rs : list (N * list ascii)) : list (list ascii) :=
  match rs with
  | [] => flush cur
  | (r, bs) :: rs' =>
    if f r then flush cur ++ spans f [] rs'
    else spans f (cur ++ bs) rs'
  end.

Definition FieldsFunc (f : N -> bool) (p : list ascii) : list (list ascii) :=
  spans f [] (runes p).

(** [strings.Fields]: the maximal runs of non-space runes. *)
Definition fields (p : list ascii) : list (list ascii) :=
  FieldsFunc IsSpace p.

(** [strings.Join]. *)
Fixpoint join (elems : list (list ascii)) (sep : list ascii) : list ascii :=
  match elems with
  | [] => []
  | [e] => e
  | e :: rest => e ++ sep ++ join rest sep
  end.

(** [strings.TrimLeftFunc]: drop leading runes that satisfy [f]. *)
Fixpoint trimLeftLoop (f : N -> bool) (fuel : nat) (p : list ascii)
    : list ascii :=
  match fuel, p with
  | S n, _ :: _ =>
    let '(r, size) := DecodeRune p in
    if f r then trimLeftLoop f n (drop size p) else p
  | _, _ => p
  end.

Definition TrimLeftFunc (f : N -> bool) (p : list ascii) : list ascii :=
  trimLeftLoop f (length p) p.

(** [strings.TrimRightFunc]: drop trailing runes that satisfy [f],
    decoding from the end. *)
Fixpoint trimRightLoop (f : N -> bool) (fuel : nat) (p : list ascii)
    : list ascii :=
  match fuel, p with
  | S n, _ :: _ =>
    let '(r, size) := DecodeLastRune p in
    if f r then trimRightLoop f n (take (length p - size) p) else p
  | _, _ => p
  end.

Definition TrimRightFunc (f : N -> bool) (p : list ascii) : list ascii :=
  trimRightLoop f (length p) p.

(** [strings.TrimSpace]. *)
Definition trimSpace (p : list ascii) : list ascii :=
  TrimRightFunc IsSpace (TrimLeftFunc IsSpace p).

(** The same functions on [string]. *)
Definition Fields (s : string) : list string :=
  string_of_list_ascii <$> fields (list_ascii_of_string s).

Definition Join (elems : list string) (sep : string) : string :=
  string_of_list_ascii
    (join (list_ascii_of_string <$> elems) (list_ascii_of_string sep)).

Definition TrimSpace (s : string) : string :=
  string_of_list_ascii (trimSpace (list_ascii_of_string s)).

(** [strings.HasPrefix s prefix]. *)
Definition HasPrefix (s prefix : string) : bool := String.prefix prefix s.

End strings.

(** ** [cleanText] (scraper.go, line 178) *)

Definition cleanText (text : string) : string :=
  strings.TrimSpace (strings.Join (strings.Fields text) " ").


(** ** Errors

    A Go [error] is modelled by its message and, for an error built with
    the [%w] verb, the error it wraps. *)

Inductive error : Type :=
| errorString (msg : string)
| wrapError (msg : string) (err : error).

Definition Error (e : error) : string :=
  match e with errorString msg | wrapError msg _ => msg end.

Definition Unwrap (e : error) : option error :=
  match e with errorString _ => None | wrapError _ err => Some err end.

(** [fmt.Errorf(format ++ "%w", err)] where [prefix] is the text the
    verbs before [%w] produce. *)
Definition Errorf_w (prefix : string) (err : error) : error :=
  wrapError (prefix +:+ Error err) err.

(** [%d] of an [int]. *)
Definition itoa (n : Z) : string :=
  NilZero.string_of_int (Z.to_int n).

(** [strings.Contains], used to state what an error message includes. *)
Fixpoint Contains (s substr : string) : bool :=
  String.prefix substr s
  || match s with
     | EmptyString => false
     | String _ s' => Contains s' substr
     end.

(** ** Contexts

    A [context.Context] is observed through [Done] and [Err] only: the
    model keeps what [ctx.Err()] returns, [None] while [Done] is open. *)

Module context.

Definition Context : Type := option error.

Definition Canceled : error := errorString "context canceled".
Definition DeadlineExceeded : error :=
  errorString "context deadline exceeded".

Definition Background : Context := None.

(** [context.WithTimeout] at the moment it is created: a parent that is
    done makes the child done with the same error, and a deadline that
    has already passed expires the child at once. *)
Definition WithTimeout (parent : Context) (timeout : Z) : Context :=
  match parent with
  | Some err => Some err
  | None => if (timeout <=? 0)%Z then Some DeadlineExceeded else None
  end.

(** A [CancelFunc]: the first cancellation wins. *)
Definition cancel (ctx : Context) : Context :=
  match ctx with Some err => Some err | None => Some Canceled end.

(** Cancellation from outside (the parent is cancelled, or a deadline
    passes) with error [err]. *)
Definition expire (err : error) (ctx : Context) : Context :=
  match ctx with Some e => Some e | None => Some err end.

End context.

(** ** Data of [scraper.go] *)

Record ScraperConfig : Type := {
  ConcurrentRequests : Z;
  RequestsPerSecond : Q;
  Timeout : Z  (* a [time.Duration], in nanoseconds *)
}.

Definition Minute : Z := 60 * 1000000000.

Definition DefaultConfig : ScraperConfig :=
  {| ConcurrentRequests := 3; RequestsPerSecond := 1; Timeout := 2 * Minute |}.

Record Article : Type := {
  Title : string;
  URL : string;
  Summary : string;
  Date : Z  (* a [time.Time] *)
}.

(** ** The collector

    Of a [colly.Collector] the scraper uses [OnHTML], [OnError], [Visit],
    [Wait] and the field [AllowURLRevisit].  The callbacks that
    [scrapeURL] registers are closures over the locals of one activation
    of [scrapeURL]; the collector keeps them, in registration order, for
    its whole life, so the model keeps the activation each one writes to. *)

Record Collector : Type := {
  UserAgent : string;
  MaxDepth : Z;
  AllowURLRevisit : bool;
  visited : list string;       (* the store of requests already made *)
  htmlCallbacks : list nat;    (* [OnHTML("article.item", _)] closures *)
  errorCallbacks : list nat    (* [OnError(_)] closures *)
}.

(** What one matched ["article.item"] element answers to the three
    queries of the callback: [e.ChildText("h3")],
    [e.ChildAttr("a", "href")] and [e.ChildText("p.description")]. *)
Record HTMLElement : Type := {
  h3 : string;
  href : string;
  description : string
}.

(** What a request meets: it fails or is answered with an error status,
    or a page arrives, given by its ["article.item"] elements in document
    order. *)
Inductive Response : Type :=
| Failed (StatusCode : Z) (err : error)
| Page (items : list HTMLElement).

(** What visiting a URL meets: the collector refuses the URL before any
    request is sent (it does not parse, a filter rejects it), or the
    request is sent and answered. *)
Inductive Visited : Type :=
| Refused (err : error)
| Sent (resp : Response).

Definition Web : Type := string -> Visited.

(** [rate.Limiter]: its rate and burst, and the number of tokens handed
    out so far.  The time-dependent refill is left to the schedule. *)
Record Limiter : Type := {
  limit : Q;
  burst : Z;
  reserved : nat
}.

Record MagazineScraper : Type := {
  collector : Collector;
  limiter : Limiter;
  config : ScraperConfig
}.

Definition userAgent : string :=
  "Mozilla/5.0 (Windows NT 10.0; Win64; x64) AppleWebKit/537.36 (KHTML, like Gecko) Chrome/91.0.4472.124 Safari/537.36".

Definition NewMagazineScraper (config : ScraperConfig) : MagazineScraper :=
  let c := {| UserAgent := userAgent; MaxDepth := 1;
              AllowURLRevisit := false; visited := [];
              htmlCallbacks := []; errorCallbacks := [] |} in
  let limiter := {| limit := RequestsPerSecond config; burst := 1;
                    reserved := 0 |} in
  {| collector := c; limiter := limiter; config := config |}.

(** ** The store

    [scrapeURL] shares three locals with its callbacks and with the
    goroutine it starts: [articles], [scrapeErr] and the channel [done].
    One [frame] holds them for one activation.  The store is the scraper
    (reached through the pointer [s]), the frames, the goroutines started
    by [scrapeURL] that have not finished yet (with the frame and the URL
    of each), and, for reference, the requests sent to the network. *)

Record frame : Type := {
  articles : list Article;
  scrapeErr : option error;
  done : bool  (* [done] has been closed *)
}.

Record store : Type := {
  scraper : MagazineScraper;
  frames : list frame;
  goroutines : list (nat * string);
  requests : list string
}.

Definition newStore (s : MagazineScraper) : store :=
  {| scraper := s; frames := []; goroutines := []; requests := [] |}.

Definition with_collector (f : Collector -> Collector) (m : store) : store :=
  {| scraper := {| collector := f (collector (scraper m));
                   limiter := limiter (scraper m);
                   config := config (scraper m) |};
     frames := frames m; goroutines := goroutines m;
     requests := requests m |}.

Definition with_limiter (f : Limiter -> Limiter) (m : store) : store :=
  {| scraper := {| collector := collector (scraper m);
                   limiter := f (limiter (scraper m));
                   config := config (scraper m) |};
     frames := frames m; goroutines := goroutines m;
     requests := requests m |}.

Definition with_frames (f : list frame -> list frame) (m : store) : store :=
  {| scraper := scraper m; frames := f (frames m);
     goroutines := goroutines m; requests := requests m |}.

Definition with_goroutines (f : list (nat * string) -> list (nat * string))
    (m : store) : store :=
  {| scraper := scraper m; frames := frames m;
     goroutines := f (goroutines m); requests := requests m |}.

Definition with_requests (f : list string -> list string) (m : store) : store :=
  {| scraper := scraper m; frames := frames m;
     goroutines := goroutines m; requests := f (requests m) |}.

Definition set_articles (f : list Article -> list Article) (fr : frame) : frame :=
  {| articles := f (articles fr); scrapeErr := scrapeErr fr; done := done fr |}.

Definition set_scrapeErr (e : error) (fr : frame) : frame :=
  {| articles := articles fr; scrapeErr := Some e; done := done fr |}.

Definition close_done (fr : frame) : frame :=
  {| articles := articles fr; scrapeErr := scrapeErr fr; done := true |}.

Definition set_AllowURLRevisit (b : bool) (c : Collector) : Collector :=
  {| UserAgent := UserAgent c; MaxDepth := MaxDepth c;
     AllowURLRevisit := b; visited := visited c;
     htmlCallbacks := htmlCallbacks c; errorCallbacks := errorCallbacks c |}.

Definition mark_visited (u : string) (c : Collector) : Collector :=
  {| UserAgent := UserAgent c; MaxDepth := MaxDepth c;
     AllowURLRevisit := AllowURLRevisit c; visited := visited c ++ [u];
     htmlCallbacks := htmlCallbacks c; errorCallbacks := errorCallbacks c |}.

(** [c.OnHTML("article.item", f)] and [c.OnError(g)] with the closures of
    activation [id]. *)
Definition OnHTML (id : nat) (c : Collector) : Collector :=
  {| UserAgent := UserAgent c; MaxDepth := MaxDepth c;
     AllowURLRevisit := AllowURLRevisit c; visited := visited c;
     htmlCallbacks := htmlCallbacks c ++ [id];
     errorCallbacks := errorCallbacks c |}.

Definition OnError (id : nat) (c : Collector) : Collector :=
  {| UserAgent := UserAgent c; MaxDepth := MaxDepth c;
     AllowURLRevisit := AllowURLRevisit c; visited := visited c;
     htmlCallbacks := htmlCallbacks c;
     errorCallbacks := errorCallbacks c ++ [id] |}.

(** ** [scrapeURL] (scraper.go, line 125) *)

(** The [OnHTML] callback (lines 135 to 147), run at time [now] on the
    element [e]; [acc] is the captured [articles]. *)
Definition onArticleItem (now : Z) (acc : list Article) (e : HTMLElement)
    : list Article :=
  let article := {| Title := cleanText (h3 e);
                    URL := href e;
                    Summary := cleanText (description e);
                    Date := now |} in
  if negb (String.eqb (Title article) EmptyString) then acc ++ [article] else acc.

(** The [OnError] callback (lines 150 to 152). *)
Definition onRequestError (StatusCode : Z) (err : error) : frame -> frame :=
  set_scrapeErr
    (Errorf_w ("request failed with status " +:+ itoa StatusCode +:+ ": ") err).

(** The collector runs every registered callback, so a response reaches
    the closures of every activation that registered on this collector. *)
Definition handleOnHTML (now : Z) (items : list HTMLElement)
    (callbacks : list nat) (fs : list frame) : list frame :=
  foldl (fun fs id =>
           alter (set_articles (fun acc => foldl (onArticleItem now) acc items))
                 id fs)
        fs callbacks.

Definition handleOnError (StatusCode : Z) (err : error)
    (callbacks : list nat) (fs : list frame) : list frame :=
  foldl (fun fs id => alter (onRequestError StatusCode err) id fs) fs callbacks.

(** The error of a refused revisit.  Releases of colly differ in the
    value (a constant, or an error that carries the URL); nothing below
    depends on its message. *)
Definition ErrAlreadyVisited : error := errorString "URL already visited".

(** The revisit check of [Visit]: unless [AllowURLRevisit] is set, a URL
    found in the store of visited requests is refused and a new one is
    recorded there. *)
Definition requestCheck (url : string) (m : store) : store * option error :=
  let c := collector (scraper m) in
  if AllowURLRevisit c then (m, None)
  else if bool_decide (url ∈ visited c) then (m, Some ErrAlreadyVisited)
  else (with_collector (mark_visited url) m, None).

(** The request and the callbacks it triggers. *)
Definition fetch (now : Z) (url : string) (resp : Response) (m : store)
    : store * option error :=
  let m := with_requests (fun l => l ++ [url]) m in
  let c := collector (scraper m) in
  match resp with
  | Page items =>
    (with_frames (handleOnHTML now items (htmlCallbacks c)) m, None)
  | Failed StatusCode err =>
    (with_frames (handleOnError StatusCode err (errorCallbacks c)) m,
     Some err)
  end.

(** [s.collector.Visit(url)]; the collector is synchronous, so the
    callbacks have run when [Visit] returns. *)
Definition Visit (web : Web) (now : Z) (url : string) (m : store)
    : store * option error :=
  match web url with
  | Refused err => (m, Some err)
  | Sent resp =>
    match requestCheck url m with
    | (m, Some err) => (m, Some err)
    | (m, None) => fetch now url resp m
    end
  end.

(** The goroutine of lines 155 to 162, writing to the locals of
    activation [id]. *)
Definition visitGoroutine (web : Web) (now : Z) (id : nat) (url : string)
    (m : store) : store :=
  let '(m, err) := Visit web now url m in
  let m := match err with
           | Some err =>
             with_frames
               (alter (set_scrapeErr
                         (Errorf_w "failed to start scraping: " err)) id) m
           | None => m
           end in
  with_frames (alter close_done id) m.

Definition flipboard : string := "https://flipboard.com/".

Definition newFrame : frame :=
  {| articles := []; scrapeErr := None; done := false |}.

(** Lines 126 to 152: the validation, the locals and the callbacks.  A
    valid URL yields the activation whose locals were allocated. *)
Definition enter (url : string) (m : store) : store * (nat + error) :=
  if negb (strings.HasPrefix url flipboard)
  then (m, inr (errorString ("invalid Flipboard URL: " +:+ url)))
  else
    let id := length (frames m) in
    let m := with_frames (fun fs => fs ++ [newFrame]) m in
    let m := with_collector (OnHTML id) m in
    let m := with_collector (OnError id) m in
    (m, inl id).

(** [go func() { ... }()]: the goroutine is started and runs later. *)
Definition spawn (id : nat) (url : string) (m : store) : store :=
  with_goroutines (fun gs => gs ++ [(id, url)]) m.

(** The two cases of the [select] (lines 165 to 174). *)
Definition onCtxDone (err : error) (m : store)
    : store * (list Article * option error) :=
  (with_collector (set_AllowURLRevisit true) m,
   ([], Some (Errorf_w "scraping cancelled: " err))).

Definition onDone (fr : frame) : list Article * option error :=
  match scrapeErr fr with
  | Some err => ([], Some err)
  | None => (articles fr, None)
  end.

Inductive selectCase : Type := caseCtxDone | caseDone.

(** A [select] takes a case that is ready, any of them when several are;
    [pick] is the case taken, and the [select] blocks ([None]) while that
    case is not ready. *)
Definition select (pick : selectCase) (ctx : context.Context) (id : nat)
    (m : store) : option (store * (list Article * option error)) :=
  match pick with
  | caseCtxDone =>
    match ctx with
    | Some err => Some (onCtxDone err m)
    | None => None
    end
  | caseDone =>
    match frames m !! id with
    | Some fr => if done fr then Some (m, onDone fr) else None
    | None => None
    end
  end.

(** How the cancellation of [ctx] falls relative to the goroutine of one
    call: not before the call returns; while [done] is still open; or
    with [done] closed as well, where the [select] may take either case. *)
Inductive cancellation : Type :=
| NotCancelled
| CancelledBefore (err : error)
| CancelledToo (err : error) (pick : selectCase).

(** [scrapeURL] called on its own, with the goroutine it starts as the
    only other party.  A call cancelled before the goroutine has finished
    leaves the goroutine running. *)
Definition scrapeURL (web : Web) (now : Z) (c : cancellation) (url : string)
    (m : store) : store * (list Article * option error) :=
  match enter url m with
  | (m, inr err) => (m, ([], Some err))
  | (m, inl id) =>
    let after := visitGoroutine web now id url m in
    let fr := default newFrame (frames after !! id) in
    match c with
    | NotCancelled => (after, onDone fr)
    | CancelledBefore err => onCtxDone err (spawn id url m)
    | CancelledToo err caseCtxDone => onCtxDone err after
    | CancelledToo err caseDone => (after, onDone fr)
    end
  end.

(** [ScrapeURL] (line 120). *)
Definition ScrapeURL := scrapeURL.

(** ** [ScrapeURLs] (scraper.go, line 69)

    The tasks that [ScrapeURLs] hands to the error group run
    concurrently, so the model is a transition system: a [run] is the
    state of one invocation, an [event] is one atomic move of one party,
    and a schedule, a list of events, fixes one interleaving.  The
    parties are the loop that calls [g.Go], the tasks, the goroutines
    that [scrapeURL] starts, and the environment that cancels the
    context. *)

Inductive outcome : Type :=
| Success (records : list Article)
| Failure (err : error).

Inductive task : Type :=
| Queued              (* [g.Go] has not been called for this URL *)
| Started             (* running, not yet back from [s.limiter.Wait] *)
| Passed              (* the limiter has let the task through *)
| Blocked (id : nat)  (* in the [select] of activation [id] of [scrapeURL] *)
| Finished (o : outcome).

Record run : Type := {
  mem : store;
  ctx : context.Context;        (* the context of the error group *)
  urls : list string;
  tasks : list task;            (* one per URL, in the order of [urls] *)
  collected : list Article;     (* [articles] of [ScrapeURLs] *)
  gerr : option error;          (* the error the group has recorded *)
  history : list (nat * outcome)  (* the tasks that returned, in order *)
}.

Definition with_mem (m : store) (r : run) : run :=
  {| mem := m; ctx := ctx r; urls := urls r; tasks := tasks r;
     collected := collected r; gerr := gerr r; history := history r |}.

Definition with_ctx (c : context.Context) (r : run) : run :=
  {| mem := mem r; ctx := c; urls := urls r; tasks := tasks r;
     collected := collected r; gerr := gerr r; history := history r |}.

Definition with_task (i : nat) (t : task) (r : run) : run :=
  {| mem := mem r; ctx := ctx r; urls := urls r;
     tasks := <[i := t]> (tasks r);
     collected := collected r; gerr := gerr r; history := history r |}.

(** A task returns.  On a [nil] return its records have been appended to
    [articles] (line 104).  On an error the group records it if it is the
    first and then cancels the group context ([errgroup.WithContext]:
    the context is cancelled the first time a task returns a non-nil
    error). *)
Definition finish (i : nat) (o : outcome) (r : run) : run :=
  {| mem := mem r;
     ctx := match o, gerr r with
            | Failure _, None => context.cancel (ctx r)
            | _, _ => ctx r
            end;
     urls := urls r;
     tasks := <[i := Finished o]> (tasks r);
     collected := match o with
                  | Success records => collected r ++ records
                  | Failure _ => collected r
                  end;
     gerr := match o, gerr r with
             | Failure err, None => Some err
             | _, g => g
             end;
     history := history r ++ [(i, o)] |}.

(** [g.SetLimit(n)]: at most [n] tasks are active, no bound when [n] is
    negative; [g.Go] blocks while no slot is free. *)
Definition active (t : task) : bool :=
  match t with Started | Passed | Blocked _ => true | _ => false end.

Definition slotFree (r : run) : bool :=
  let n := ConcurrentRequests (config (scraper (mem r))) in
  (n <? 0)%Z || (Z.of_nat (length (List.filter active (tasks r))) <? n)%Z.

Fixpoint firstQueued (ts : list task) : option nat :=
  match ts with
  | [] => None
  | Queued :: _ => Some 0
  | _ :: ts' => S <$> firstQueued ts'
  end.

Definition takeToken (l : Limiter) : Limiter :=
  {| limit := limit l; burst := burst l; reserved := S (reserved l) |}.

Definition scrapeFailed (url : string) (err : error) : outcome :=
  Failure (Errorf_w ("failed to scrape " +:+ url +:+ ": ") err).

Definition waitFailed (err : error) : outcome :=
  Failure (Errorf_w "rate limiter wait failed: " err).

Inductive event : Type :=
| Expire (err : error)
    (* the caller's context is cancelled or a deadline passes *)
| Go
    (* the loop of line 88 starts the task of the next URL *)
| Wait (i : nat) (refusal : option error)
    (* [s.limiter.Wait(ctx)] returns in task [i]; with a live context the
       limiter grants a token or refuses with [refusal] *)
| Enter (i : nat)
    (* task [i] calls [scrapeURL] and reaches the [select] or returns *)
| Visiting (k : nat) (now : Z)
    (* the [k]-th pending goroutine runs, at time [now] *)
| Select (i : nat) (pick : selectCase).
    (* the [select] of task [i] takes the case [pick] *)

Definition step (web : Web) (ev : event) (r : run) : option run :=
  match ev with
  | Expire err => Some (with_ctx (context.expire err (ctx r)) r)
  | Go =>
    if slotFree r then
      match firstQueued (tasks r) with
      | Some i => Some (with_task i Started r)
      | None => None
      end
    else None
  | Wait i refusal =>
    match tasks r !! i with
    | Some Started =>
      match ctx r, refusal with
      | Some err, _ => Some (finish i (waitFailed err) r)
      | None, Some err => Some (finish i (waitFailed err) r)
      | None, None =>
        Some (with_task i Passed (with_mem (with_limiter takeToken (mem r)) r))
      end
    | _ => None
    end
  | Enter i =>
    match tasks r !! i, urls r !! i with
    | Some Passed, Some url =>
      match enter url (mem r) with
      | (m, inr err) => Some (finish i (scrapeFailed url err) (with_mem m r))
      | (m, inl id) =>
        Some (with_task i (Blocked id) (with_mem (spawn id url m) r))
      end
    | _, _ => None
    end
  | Visiting k now =>
    match goroutines (mem r) !! k with
    | Some (id, url) =>
      Some (with_mem (visitGoroutine web now id url
                        (with_goroutines (delete k) (mem r))) r)
    | None => None
    end
  | Select i pick =>
    match tasks r !! i, urls r !! i with
    | Some (Blocked id), Some url =>
      match select pick (ctx r) id (mem r) with
      | Some (m, (records, None)) =>
        Some (finish i (Success records) (with_mem m r))
      | Some (m, (_, Some err)) =>
        Some (finish i (scrapeFailed url err) (with_mem m r))
      | None => None
      end
    | _, _ => None
    end
  end.

Fixpoint exec (web : Web) (sched : list event) (r : run) : option run :=
  match sched with
  | [] => Some r
  | ev :: sched' =>
    match step web ev r with
    | Some r' => exec web sched' r'
    | None => None
    end
  end.

Definition isFinished (t : task) : bool :=
  match t with Finished _ => true | _ => false end.

(** Lines 74 to 85: the timeout, the group and the empty [articles]. *)
Definition start (ctx : context.Context) (urls : list string) (m : store) : run :=
  {| mem := m;
     ctx := context.WithTimeout ctx (Timeout (config (scraper m)));
     urls := urls;
     tasks := replicate (length urls) Queued;
     collected := [];
     gerr := None;
     history := [] |}.

(** Lines 111 to 116, once [g.Wait()] has returned. *)
Definition conclude (r : run) : store * (list Article * option error) :=
  (mem r,
   (collected r,
    match gerr r with
    | Some err => Some (Errorf_w "scraping error: " err)
    | None => None
    end)).

(** [ScrapeURLs] under the schedule [sched].  [g.Wait()] returns when
    every task has returned; a schedule that stops earlier, or that asks
    for a move that is not possible, describes no invocation ([None]). *)
Definition ScrapeURLs (web : Web) (sched : list event)
    (ctx : context.Context) (urls : list string) (m : store)
    : option (store * (list Article * option error)) :=
  match urls with
  | [] => Some (m, ([], Some (errorString "no URLs provided")))
  | _ =>
    match exec web sched (start ctx urls m) with
    | Some r =>
      if forallb isFinished (tasks r) then Some (conclude r) else None
    | None => None
    end
  end.

(** ** Auxiliary notions used in the statements *)

#[global] Instance error_eq_dec : EqDecision error.
Proof. solve_decision. Defined.


(** The records a page yields to a callback that starts from an empty
    [articles]. *)
Definition extract (now : Z) (items : list HTMLElement) : list Article :=
  foldl (onArticleItem now) [] items.


Definition titled (records : list Article) : Prop :=
  Forall (fun a => Title a <> EmptyString) records.

Definition valid (url : string) : bool := strings.HasPrefix url flipboard.

(** A task has got past [s.limiter.Wait]: it holds a token. *)
Definition servedByLimiter (t : task) : bool :=
  match t with
  | Queued | Started => false
  | Passed | Blocked _ => true
  | Finished (Success _) => true
  | Finished (Failure err) =>
    negb (String.prefix "rate limiter wait failed: " (Error err))
  end.

Definition isFailure (o : outcome) : option error :=
  match o with Failure err => Some err | Success _ => None end.

Definition recordsOf (o : outcome) : list Article :=
  match o with Success records => records | Failure _ => [] end.

(** A small web and two scrapers for the examples. *)
Definition demoWeb : Web := fun url =>
  if String.eqb url "https://flipboard.com/a" then
    Sent (Page [ {| h3 := "  Hello   World "; href := "https://example.org/1";
                    description := EmptyString |};
                 {| h3 := "   "; href := "https://example.org/2";
                    description := "dropped" |} ])
  else if String.eqb url "https://flipboard.com/b" then
    Sent (Page [ {| h3 := "B"; href := EmptyString; description := EmptyString |} ])
  else Sent (Failed 404 (errorString "Not Found")).

Definition freshStore : store := newStore (NewMagazineScraper DefaultConfig).

Definition sequential : ScraperConfig :=
  {| ConcurrentRequests := 1; RequestsPerSecond := 1; Timeout := 2 * Minute |}.


(** A property of frames that no write of [scrapeURL], of its goroutine or
    of its callbacks breaks, and the relation between the frames before
    and after such writes. *)
Record stable (P : frame -> Prop) : Prop := {
  stable_articles now items fr :
    P fr ->
    P (set_articles (fun acc => foldl (onArticleItem now) acc items) fr);
  stable_scrapeErr e fr : P fr -> P (set_scrapeErr e fr);
  stable_done fr : P fr -> P (close_done fr)
}.

Definition evolves (P : frame -> Prop) (fs fs' : list frame) : Prop :=
  length fs' = length fs
  /\ forall j fr', fs' !! j = Some fr' ->
       exists fr, fs !! j = Some fr /\ (P fr -> P fr').

(** The moves of [step], one rule per way a move can go. *)
Inductive transition (web : Web) : event -> run -> run -> Prop :=
| t_expire err r :
    transition web (Expire err) r (with_ctx (context.expire err (ctx r)) r)
| t_go i r :
    slotFree r = true -> firstQueued (tasks r) = Some i ->
    transition web Go r (with_task i Started r)
| t_wait_done i refusal err r :
    tasks r !! i = Some Started -> ctx r = Some err ->
    transition web (Wait i refusal) r (finish i (waitFailed err) r)
| t_wait_refused i err r :
    tasks r !! i = Some Started -> ctx r = None ->
    transition web (Wait i (Some err)) r (finish i (waitFailed err) r)
| t_wait_granted i r :
    tasks r !! i = Some Started -> ctx r = None ->
    transition web (Wait i None) r
      (with_task i Passed (with_mem (with_limiter takeToken (mem r)) r))
| t_enter_invalid i url r :
    tasks r !! i = Some Passed -> urls r !! i = Some url ->
    valid url = false ->
    transition web (Enter i) r
      (finish i
         (scrapeFailed url (errorString ("invalid Flipboard URL: " +:+ url)))
         (with_mem (mem r) r))
| t_enter_valid i url r :
    tasks r !! i = Some Passed -> urls r !! i = Some url ->
    valid url = true ->
    let id := length (frames (mem r)) in
    transition web (Enter i) r
      (with_task i (Blocked id)
         (with_mem (spawn id url (fst (enter url (mem r)))) r))
| t_visiting k now id url r :
    goroutines (mem r) !! k = Some (id, url) ->
    transition web (Visiting k now) r
      (with_mem (visitGoroutine web now id url
                   (with_goroutines (delete k) (mem r))) r)
| t_select_ctx i id url err r :
    tasks r !! i = Some (Blocked id) -> urls r !! i = Some url ->
    ctx r = Some err ->
    transition web (Select i caseCtxDone) r
      (finish i (scrapeFailed url (Errorf_w "scraping cancelled: " err))
         (with_mem (with_collector (set_AllowURLRevisit true) (mem r)) r))
| t_select_done i id url fr r :
    tasks r !! i = Some (Blocked id) -> urls r !! i = Some url ->
    frames (mem r) !! id = Some fr -> done fr = true ->
    transition web (Select i caseDone) r
      (finish i
         match scrapeErr fr with
         | Some err => scrapeFailed url err
         | None => Success (articles fr)
         end
         (with_mem (mem r) r)).

(** The first error in a history, and the records of its successes. *)
Definition firstFailure (h : list (nat * outcome)) : option error :=
  head (omap (fun x => isFailure (snd x)) h).

Definition recordsIn (h : list (nat * outcome)) : list Article :=
  concat ((fun x => recordsOf (snd x)) <$> h).

(** A run is over when every task has returned. *)
Definition over (r : run) : Prop := forallb isFinished (tasks r) = true.

(** ** Text as runes

    The statements about [cleanText] read a text the way the [range]
    loop of [strings.FieldsFunc] does, as runes, each with the bytes that
    encode it. *)

(** The bytes of a sequence of runes. *)
Definition bytesOf (rs : list (N * list ascii)) : list ascii :=
  concat (snd <$> rs).

(** [p] is empty or starts with a byte that is not a continuation byte. *)
Definition nonCont (p : list ascii) : Prop :=
  match p with [] => True | b :: _ => utf8.cont b = false end.

(** [rs], followed by the bytes [post], is what the decoder reads off the
    bytes of [rs]: at each rune it yields that rune and consumes exactly
    its bytes. *)
Fixpoint chain (rs : list (N * list ascii)) (post : list ascii) : Prop :=
  match rs with
  | [] => True
  | (r, bs) :: rs' =>
    bs <> [] /\ utf8.DecodeRune (bs ++ bytesOf rs' ++ post) = (r, length bs)
    /\ chain rs' post
  end.

Definition isSpaceRune (x : N * list ascii) : bool := unicode.IsSpace (fst x).

(** U+0020, the separator that [cleanText] hands to [strings.Join]. *)
Definition spaceRune : N * list ascii := (0x20%N, [" "%char]).

(** The normalisation in the words of the specification: every run of
    white space collapses into a single space ([inRun] tells that the
    rune before was white space), then the white space at both ends is
    trimmed. *)
Fixpoint collapseWhitespace (inRun : bool) (rs : list (N * list ascii))
    : list (N * list ascii) :=
  match rs with
  | [] => []
  | x :: rs' =>
    if isSpaceRune x
    then (if inRun then [] else [spaceRune]) ++ collapseWhitespace true rs'
    else x :: collapseWhitespace false rs'
  end.

Fixpoint dropLeading (rs : list (N * list ascii)) : list (N * list ascii) :=
  match rs with
  | x :: rs' => if isSpaceRune x then dropLeading rs' else rs
  | [] => []
  end.

Definition trimWhitespace (rs : list (N * list ascii)) : list (N * list ascii) :=
  rev (dropLeading (rev (dropLeading rs))).

Definition normalizeWhitespace (rs : list (N * list ascii))
    : list (N * list ascii) :=
  trimWhitespace (collapseWhitespace false rs).

(** The words of a text, rune by rune: what [strings.Fields] computes on
    bytes, and the words joined by single spaces. *)
Definition flushWord (cur : list (N * list ascii))
    : list (list (N * list ascii)) :=
  match cur with [] => [] | _ => [cur] end.

Fixpoint wordsFrom (cur rs : list (N * list ascii))
    : list (list (N * list ascii)) :=
  match rs with
  | [] => flushWord cur
  | x :: rs' =>
    if isSpaceRune x then flushWord cur ++ wordsFrom [] rs'
    else wordsFrom (cur ++ [x]) rs'
  end.

Fixpoint joinWords (ws : list (list (N * list ascii))) : list (N * list ascii) :=
  match ws with
  | [] => []
  | [w] => w
  | w :: rest => w ++ spaceRune :: joinWords rest
  end.

(** ** Invariants of an invocation *)

(** A task has returned with an outcome exactly when the history says so. *)
Definition recorded (r : run) : Prop :=
  forall i o, tasks r !! i = Some (Finished o) <-> (i, o) ∈ history r.

(** Every outcome in the history is a success, a failed wait, or a failed
    scrape of the URL of its task. *)
Definition explained (r : run) : Prop :=
  forall i o, (i, o) ∈ history r ->
    (exists e, o = waitFailed e)
    \/ exists url, urls r !! i = Some url
         /\ ((exists records, o = Success records)
             \/ exists e, o = scrapeFailed url e).

(** The tokens the limiter has handed out, and the tasks that got one. *)
Definition tokens (r : run) : nat := reserved (limiter (scraper (mem r))).

Definition served (r : run) : nat :=
  length (List.filter servedByLimiter (tasks r)).

(** Requests go to valid URLs only, and so will those of the goroutines
    still to run. *)
Definition requestsValid (rq0 : list string) (r : run) : Prop :=
  (exists extra, requests (mem r) = rq0 ++ extra
                 /\ Forall (fun u => valid u = true) extra)
  /\ Forall (fun g => valid (snd g) = true) (goroutines (mem r)).

(** A task blocked in the [select] has its locals, and its goroutine has
    finished or is still to run. *)
Definition blockedReady (r : run) : Prop :=
  forall i id, tasks r !! i = Some (Blocked id) ->
    exists fr, frames (mem r) !! id = Some fr
      /\ (done fr = true
          \/ exists k url, goroutines (mem r) !! k = Some (id, url)).

(** The activations of this invocation are those from [n0] on; their
    records, and what has been collected from them, have titles. *)
Definition titledRun (n0 : nat) (r : run) : Prop :=
  n0 <= length (frames (mem r))
  /\ (forall id fr, n0 <= id -> frames (mem r) !! id = Some fr ->
        titled (articles fr))
  /\ (forall i id, tasks r !! i = Some (Blocked id) -> n0 <= id)
  /\ titled (collected r).

Definition isQueued (t : task) : bool :=
  match t with Queued => true | _ => false end.

Definition ready (r : run) : Prop :=
  blockedReady r /\ length (tasks r) = length (urls r).

(** One task at a time: a task that has started can be brought to its
    return, whatever state it is in, without moving the others. *)
Definition returns (web : Web) (i : nat) (r : run) : Prop :=
  exists sched r' o,
    exec web sched r = Some r'
    /\ tasks r' = <[i := Finished o]> (tasks r)
    /\ config (scraper (mem r')) = config (scraper (mem r)).

Definition count (f : task -> bool) (r : run) : nat :=
  length (List.filter f (tasks r)).

(** The task of a URL that fails the validation never reaches the
    [select]: it is waiting its turn, or it has failed, at the limiter or
    at the validation. *)
Definition invalidOutcome (r : run) : Prop :=
  forall i url t, urls r !! i = Some url -> valid url = false ->
    tasks r !! i = Some t ->
    match t with
    | Blocked _ => False
    | Finished o =>
      (exists e, o = waitFailed e)
      \/ o = scrapeFailed url (errorString ("invalid Flipboard URL: " +:+ url))
    | _ => True
    end.

(** What the error of [ScrapeURLs] says, given the history of the run: it
    wraps the first failure, and with it the cause of that failure; its
    message contains the message of the cause, and the URL when the
    failure is one of [scrapeURL]. *)
Definition summarizes (us : list string) (h : list (nat * outcome))
    (e : error) : Prop :=
  exists i first cause,
    firstFailure h = Some first
    /\ (i, Failure first) ∈ h
    /\ e = Errorf_w "scraping error: " first
    /\ Unwrap e = Some first
    /\ Unwrap first = Some cause
    /\ Contains (Error e) (Error cause) = true
    /\ (first = Errorf_w "rate limiter wait failed: " cause
        \/ exists url, us !! i = Some url
             /\ first = Errorf_w ("failed to scrape " +:+ url +:+ ": ") cause
             /\ Contains (Error e) url = true).

(** * Properties *)

(** ** Text normalisation

    The decoder reads a rune off at most four bytes, and what follows a
    word in a text (a space) or in the joined words (the separator) never
    starts with a continuation byte: so the words of a text are decoded,
    in the output of [cleanText], as they were in its input. *)

Import utf8 unicode strings.

Lemma second3_cont x b : cont b = false -> second3 x (code b) = false.
Proof.
  unfold second3, cont, between. intros H.
  apply andb_false_iff in H.
  repeat case_match; apply andb_false_iff;
    destruct H as [H|H]; apply N.leb_gt in H; [left|right|left|right|left|right];
    apply N.leb_gt; lia.
Qed.

Lemma second4_cont x b : cont b = false -> second4 x (code b) = false.
Proof.
  unfold second4, cont, between. intros H.
  apply andb_false_iff in H.
  repeat case_match; apply andb_false_iff;
    destruct H as [H|H]; apply N.leb_gt in H; [left|right|left|right|left|right];
    apply N.leb_gt; lia.
Qed.

Lemma DecodeRune_local b c u u' :
  nonCont u -> nonCont u' ->
  DecodeRune (b :: c ++ u) = DecodeRune (b :: c ++ u').
Proof.
  intros Hu Hu'. unfold DecodeRune. cbv zeta.
  destruct c as [|c1 [|c2 [|c3 c]]]; simpl; [| | |done];
    destruct u as [|u1 [|u2 [|u3 u]]], u' as [|v1 [|v2 [|v3 u']]];
    simpl in *;
    rewrite ?(second3_cont _ _ Hu), ?(second3_cont _ _ Hu'),
      ?(second4_cont _ _ Hu), ?(second4_cont _ _ Hu'), ?Hu, ?Hu',
      ?andb_false_r; simpl; rewrite ?andb_false_r; try done;
    repeat case_match; done.
Qed.

Lemma DecodeRune_size b t :
  1 <= snd (DecodeRune (b :: t)) <= length (b :: t).
Proof.
  unfold DecodeRune. cbv zeta.
  destruct t as [|b1 [|b2 [|b3 t]]]; repeat case_match; simpl; lia.
Qed.

(** A space is never the replacement rune, so its encoding starts with a
    byte that can start a rune. *)
Lemma DecodeRune_space b t :
  IsSpace (fst (DecodeRune (b :: t))) = true -> cont b = false.
Proof.
  unfold DecodeRune. cbv zeta. unfold cont.
  destruct (code b <? 0x80)%N eqn:H1.
  { intros _. apply N.ltb_lt in H1. unfold between.
    apply andb_false_iff. left. apply N.leb_gt. lia. }
  destruct (between 0xC2 0xDF (code b)) eqn:H2.
  { intros _. unfold between in *. apply andb_true_iff in H2 as [H2 _].
    apply N.leb_le in H2. apply andb_false_iff. right. apply N.leb_gt. lia. }
  destruct (between 0xE0 0xEF (code b)) eqn:H3.
  { intros _. unfold between in *. apply andb_true_iff in H3 as [H3 _].
    apply N.leb_le in H3. apply andb_false_iff. right. apply N.leb_gt. lia. }
  destruct (between 0xF0 0xF4 (code b)) eqn:H4.
  { intros _. unfold between in *. apply andb_true_iff in H4 as [H4 _].
    apply N.leb_le in H4. apply andb_false_iff. right. apply N.leb_gt. lia. }
  done.
Qed.

(** ** The range loop *)

Lemma rangeLoop_fuel n m p :
  length p <= n -> length p <= m -> rangeLoop n p = rangeLoop m p.
Proof.
  revert m p. induction n as [|n IH]; intros m p Hn Hm.
  { destruct p; [|simpl in Hn; lia]. by destruct m. }
  destruct p as [|b t]; [by destruct m|].
  destruct m as [|m]; [simpl in Hm; lia|].
  cbn [rangeLoop]. pose proof (DecodeRune_size b t) as Hs.
  destruct (DecodeRune (b :: t)) as [r size]. cbn [snd] in Hs.
  f_equal. apply IH; rewrite length_drop; simpl in *; lia.
Qed.

Lemma rangeLoop_chain rs post fuel :
  chain rs post -> length (bytesOf rs ++ post) <= fuel ->
  rangeLoop fuel (bytesOf rs ++ post) = rs ++ rangeLoop fuel post.
Proof.
  revert fuel. induction rs as [|[r bs] rs IH]; intros fuel Hc Hf; [done|].
  destruct Hc as (Hne & Hd & Hc).
  unfold bytesOf in *. cbn [fmap list_fmap concat snd] in *.
  rewrite <- app_assoc in *.
  destruct fuel as [|fuel].
  { destruct bs; [done|simpl in Hf; lia]. }
  destruct bs as [|b t]; [done|].
  assert (rangeLoop (S fuel) post = rangeLoop fuel post) as ->.
  { apply rangeLoop_fuel; rewrite !length_app in *; simpl in *; lia. }
  cbn [rangeLoop app].
  change (b :: t ++ concat (snd <$> rs) ++ post)
    with ((b :: t) ++ concat (snd <$> rs) ++ post).
  rewrite Hd. rewrite take_app_length, drop_app_length.
  cbn [app]. f_equal.
  apply IH; [done|rewrite !length_app in *; simpl in *; lia].
Qed.

Lemma runes_chain rs : chain rs [] -> runes (bytesOf rs) = rs.
Proof.
  intros H. unfold runes.
  pose proof (rangeLoop_chain rs [] (length (bytesOf rs)) H) as E.
  rewrite !app_nil_r in E. rewrite E by done.
  destruct (length (bytesOf rs)); by rewrite app_nil_r.
Qed.

Lemma rangeLoop_parses fuel p :
  length p <= fuel ->
  chain (rangeLoop fuel p) [] /\ bytesOf (rangeLoop fuel p) = p.
Proof.
  revert p. induction fuel as [|n IH]; intros p Hf.
  { destruct p; [done|simpl in Hf; lia]. }
  destruct p as [|b t]; [done|]. cbn [rangeLoop].
  pose proof (DecodeRune_size b t) as Hs.
  destruct (DecodeRune (b :: t)) as [r size] eqn:Hd. cbn [snd] in Hs.
  destruct (IH (drop size (b :: t))) as [Hc Hb].
  { rewrite length_drop. simpl in *. lia. }
  unfold bytesOf in *. cbn [chain fmap list_fmap concat snd].
  change (list_fmap _ _ snd) with (fmap (M:=list) (@snd N (list ascii))).
  rewrite Hb, app_nil_r, take_drop. repeat split; try done.
  - destruct size; [lia|done].
  - unfold bytesOf. rewrite Hb, take_drop, Hd. f_equal. rewrite length_take. simpl in *. lia.
Qed.

Lemma runes_parses p : chain (runes p) [] /\ bytesOf (runes p) = p.
Proof. by apply rangeLoop_parses. Qed.

(** ** Chains *)

Lemma bytesOf_app rs1 rs2 : bytesOf (rs1 ++ rs2) = bytesOf rs1 ++ bytesOf rs2.
Proof. unfold bytesOf. by rewrite fmap_app, concat_app. Qed.

Lemma chain_app rs1 rs2 post :
  chain (rs1 ++ rs2) post <-> chain rs1 (bytesOf rs2 ++ post) /\ chain rs2 post.
Proof.
  induction rs1 as [|[r bs] rs1 IH]; simpl; [tauto|].
  rewrite bytesOf_app, <- app_assoc. tauto.
Qed.

Lemma chain_post rs post post' :
  nonCont post -> nonCont post' -> chain rs post -> chain rs post'.
Proof.
  intros Hp Hp'. induction rs as [|[r bs] rs IH]; [done|].
  intros (Hne & Hd & Hc). repeat split; [done| |by apply IH].
  destruct bs as [|b t]; [done|]. rewrite <- Hd. cbn [app].
  rewrite !app_assoc. by apply DecodeRune_local.
Qed.

Lemma chain_nonCont r bs rs post :
  chain ((r, bs) :: rs) post -> IsSpace r = true ->
  nonCont (bytesOf ((r, bs) :: rs) ++ post).
Proof.
  intros (Hne & Hd & _) Hs. destruct bs as [|b t]; [done|].
  unfold bytesOf. cbn. apply (DecodeRune_space b (t ++ bytesOf rs ++ post)).
  cbn [app] in Hd. by rewrite Hd.
Qed.

Lemma runes_app a b : nonCont b -> runes (a ++ b) = runes a ++ runes b.
Proof.
  intros Hb. destruct (runes_parses a) as [Hc Ha].
  assert (chain (runes a) b) as Hc'.
  { by apply (chain_post _ []). }
  unfold runes at 1.
  rewrite <- Ha at 2. rewrite rangeLoop_chain; [|done|by rewrite Ha].
  f_equal. apply rangeLoop_fuel; rewrite ?length_app; lia.
Qed.

(** ** The trimming functions *)

Lemma TrimLeftFunc_id f q :
  q = [] \/ f (fst (DecodeRune q)) = false -> TrimLeftFunc f q = q.
Proof.
  intros [->|H]; [done|]. unfold TrimLeftFunc. destruct q as [|b t]; [done|].
  cbn [length trimLeftLoop]. destruct (DecodeRune (b :: t)) as [r size].
  cbn in H. by rewrite H.
Qed.

Lemma TrimRightFunc_id f q :
  q = [] \/ f (fst (DecodeLastRune q)) = false -> TrimRightFunc f q = q.
Proof.
  intros [->|H]; [done|]. unfold TrimRightFunc. destruct q as [|b t]; [done|].
  cbn [length trimRightLoop]. destruct (DecodeLastRune (b :: t)) as [r size].
  cbn in H. by rewrite H.
Qed.

Lemma backtrack_suffix n back acc :
  exists pre, rev back ++ acc = pre ++ backtrack n back acc.
Proof.
  revert back acc. induction n as [|n IH]; intros [|b back] acc; simpl;
    try (by exists []).
  - exists (rev back). by rewrite <- app_assoc.
  - destruct (RuneStart b).
    + exists (rev back). by rewrite <- app_assoc.
    + destruct (IH back (b :: acc)) as [pre E]. exists pre.
      by rewrite <- app_assoc.
Qed.

Lemma backtrack_nonempty n back acc : acc <> [] -> backtrack n back acc <> [].
Proof.
  revert back acc. induction n as [|n IH]; intros [|b back] acc H; simpl;
    try done.
  destruct (RuneStart b); [done|]. by apply IH.
Qed.

Lemma DecodeLastRune_space q :
  IsSpace (fst (DecodeLastRune q)) = true ->
  exists pre tail r,
    q = pre ++ tail /\ tail <> []
    /\ DecodeRune tail = (r, length tail) /\ IsSpace r = true.
Proof.
  unfold DecodeLastRune. destruct (rev q) as [|l back] eqn:Hr; [done|].
  assert (q = rev back ++ [l]) as ->.
  { by rewrite <- (rev_involutive q), Hr. }
  destruct (code l <? 0x80)%N eqn:Hl.
  { intros H. exists (rev back), [l], (code l).
    repeat split; try done. unfold DecodeRune. by rewrite Hl. }
  destruct (backtrack_suffix 3 back [l]) as [pre E].
  pose proof (backtrack_nonempty 3 back [l]) as Hne.
  destruct (DecodeRune (backtrack 3 back [l])) as [r size] eqn:Hd.
  destruct (Nat.eqb_spec size (length (backtrack 3 back [l]))) as [->|_];
    [|done].
  intros H. exists pre, (backtrack 3 back [l]), r. repeat split; auto.
Qed.

(** A space decoded from the end is the last rune met from the front. *)
Lemma last_rune_space q :
  IsSpace (fst (DecodeLastRune q)) = true ->
  exists rs x, runes q = rs ++ [x] /\ isSpaceRune x = true.
Proof.
  intros (pre & tail & r & -> & Hne & Hd & Hs)%DecodeLastRune_space.
  exists (runes pre), (r, tail). split; [|done].
  rewrite runes_app.
  - f_equal. rewrite <- (runes_chain [(r, tail)]).
    + unfold bytesOf. cbn. by rewrite app_nil_r.
    + cbn. unfold bytesOf. cbn. by rewrite !app_nil_r.
  - destruct tail as [|b t]; [done|]. cbn.
    apply (DecodeRune_space b t). by rewrite Hd.
Qed.

(** ** Words *)

Local Abbreviation nonSpace := (fun x : N * list ascii => isSpaceRune x = false).
Local Abbreviation encoded := (fun x : N * list ascii => snd x <> []).

Lemma chain_encoded rs post : chain rs post -> Forall encoded rs.
Proof.
  induction rs as [|[r bs] rs IH]; [constructor|].
  intros (Hne & _ & Hc). constructor; [done|by apply IH].
Qed.

Lemma flush_flushWord cur :
  Forall encoded cur -> flush (bytesOf cur) = bytesOf <$> flushWord cur.
Proof.
  destruct cur as [|[r bs] cur]; [done|].
  intros [Hne _]%Forall_cons. cbn in Hne. unfold bytesOf. cbn.
  by destruct bs.
Qed.

Lemma spans_wordsFrom cur rs :
  Forall encoded cur -> Forall encoded rs ->
  spans IsSpace (bytesOf cur) rs = bytesOf <$> wordsFrom cur rs.
Proof.
  revert cur. induction rs as [|[r bs] rs IH]; intros cur Hcur Hrs; simpl.
  { by apply flush_flushWord. }
  apply Forall_cons in Hrs as [Hne Hrs]. unfold isSpaceRune. cbn [fst].
  destruct (IsSpace r).
  - rewrite fmap_app, flush_flushWord by done. f_equal.
    by apply (IH []).
  - rewrite <- IH; [|apply Forall_app; split; [done|by constructor]|done].
    f_equal. rewrite bytesOf_app. unfold bytesOf. cbn. by rewrite app_nil_r.
Qed.

Lemma join_joinWords ws :
  join (bytesOf <$> ws) [" "%char] = bytesOf (joinWords ws).
Proof.
  induction ws as [|w [|w' ws] IH]; [done|done|].
  change (joinWords (w :: w' :: ws))
    with (w ++ [spaceRune] ++ joinWords (w' :: ws)).
  rewrite !bytesOf_app, <- IH. reflexivity.
Qed.

Lemma wordsFrom_nonempty cur rs : cur <> [] -> wordsFrom cur rs <> [].
Proof.
  revert cur. induction rs as [|x rs IH]; intros cur H; simpl.
  - by destruct cur.
  - destruct (isSpaceRune x).
    + by destruct cur.
    + apply IH. by destruct cur.
Qed.

Lemma wordsFrom_nonSpace cur rs :
  Forall nonSpace cur ->
  Forall (fun w => w <> [] /\ Forall nonSpace w) (wordsFrom cur rs).
Proof.
  revert cur. induction rs as [|x rs IH]; intros cur H; simpl.
  - destruct cur; cbn; [constructor|]. constructor; [by split|constructor].
  - destruct (isSpaceRune x) eqn:Hx.
    + apply Forall_app. split; [|by apply IH].
      destruct cur; cbn; [constructor|]. constructor; [by split|constructor].
    + apply IH. apply Forall_app. split; [done|by repeat constructor].
Qed.

Lemma wordsFrom_chain cur rs :
  chain (cur ++ rs) [] -> Forall (fun w => chain w []) (wordsFrom cur rs).
Proof.
  revert cur. induction rs as [|x rs IH]; intros cur H; simpl.
  - rewrite app_nil_r in H. destruct cur; cbn; repeat constructor; done.
  - destruct (isSpaceRune x) eqn:Hx.
    + apply chain_app in H as [H1 H2]. apply Forall_app. split.
      * destruct x as [r bs].
        pose proof (chain_nonCont r bs rs [] H2 Hx) as Hn.
        apply (chain_post _ _ []) in H1; [|done..].
        destruct cur; cbn; repeat constructor; done.
      * apply (IH []). by destruct x as [r bs], H2 as (_ & _ & H2).
    + apply IH. by rewrite <- app_assoc.
Qed.

Lemma chain_spaceRune rs post : chain rs post -> chain (spaceRune :: rs) post.
Proof. intros H. repeat split; done. Qed.

Lemma joinWords_chain ws :
  Forall (fun w => chain w []) ws -> chain (joinWords ws) [].
Proof.
  induction ws as [|w [|w' ws] IH]; intros H; [done|by inversion H|].
  apply Forall_cons in H as [Hw H].
  change (joinWords (w :: w' :: ws))
    with (w ++ spaceRune :: joinWords (w' :: ws)).
  apply chain_app. split; [|by apply chain_spaceRune, IH].
  by apply (chain_post _ []).
Qed.

Lemma joinWords_head ws x :
  Forall (fun w => w <> [] /\ Forall nonSpace w) ws ->
  head (joinWords ws) = Some x -> isSpaceRune x = false.
Proof.
  destruct ws as [|w ws]; [done|].
  intros [[Hne Hw] _]%Forall_cons.
  assert (head (joinWords (w :: ws)) = head w) as ->.
  { destruct ws; [done|]. by destruct w. }
  destruct w as [|y w]; [done|]. intros [= ->].
  by apply Forall_cons in Hw as [? _].
Qed.

Lemma joinWords_last ws x :
  Forall (fun w => w <> [] /\ Forall nonSpace w) ws ->
  last (joinWords ws) = Some x -> isSpaceRune x = false.
Proof.
  induction ws as [|w [|w' ws] IH]; [done| |].
  - intros [[Hne Hw] _]%Forall_cons Hl. cbn in Hl.
    apply last_Some_elem_of in Hl. rewrite Forall_forall in Hw. by apply Hw.
  - intros [_ H]%Forall_cons.
    change (joinWords (w :: w' :: ws))
      with (w ++ spaceRune :: joinWords (w' :: ws)).
    assert (joinWords (w' :: ws) <> []) as Hne.
    { apply Forall_cons in H as [[Hne _] _]. destruct ws; by destruct w'. }
    rewrite last_app_cons, last_cons.
    destruct (last (joinWords (w' :: ws))) eqn:Hl; [by apply IH|].
    by apply last_None in Hl.
Qed.

(** ** The words of a text against the wording of the specification *)

Local Abbreviation trimTrailing rs := (rev (dropLeading (rev rs))).

Lemma trimTrailing_nonSpace l x :
  isSpaceRune x = false -> trimTrailing (l ++ [x]) = l ++ [x].
Proof. intros H. rewrite rev_unit. cbn. rewrite H. cbn. by rewrite rev_involutive. Qed.

Lemma trimTrailing_space l x :
  isSpaceRune x = true -> trimTrailing (l ++ [x]) = trimTrailing l.
Proof. intros H. rewrite rev_unit. cbn. by rewrite H. Qed.

Lemma trimTrailing_words rs :
  forall pre cur, cur <> [] -> Forall nonSpace cur ->
    trimTrailing (pre ++ cur ++ collapseWhitespace false rs)
    = pre ++ joinWords (wordsFrom cur rs)
    /\ trimTrailing (pre ++ cur ++ spaceRune :: collapseWhitespace true rs)
       = pre ++ joinWords (cur :: wordsFrom [] rs).
Proof.
  induction rs as [|x rs IH]; intros pre cur Hne Hcur.
  - assert (exists l y, cur = l ++ [y] /\ isSpaceRune y = false)
      as (l & y & -> & Hy).
    { destruct (last cur) as [y|] eqn:Hl; [|by apply last_None in Hl].
      pose proof (last_Some_elem_of _ _ Hl) as Hin.
      apply last_Some in Hl as [l ->]. exists l, y. split; [done|].
      rewrite Forall_forall in Hcur. by apply Hcur. }
    cbn. rewrite app_nil_r. split.
    + rewrite app_assoc, trimTrailing_nonSpace by done.
      rewrite <- app_assoc. by destruct l.
    + replace (pre ++ (l ++ [y]) ++ [spaceRune])
        with ((pre ++ l ++ [y]) ++ [spaceRune]) by by rewrite <- !app_assoc.
      rewrite trimTrailing_space by done.
      rewrite app_assoc, trimTrailing_nonSpace by done.
      rewrite <- app_assoc. by destruct l.
  - cbn [collapseWhitespace wordsFrom]. destruct (isSpaceRune x) eqn:Hx.
    + destruct (IH pre cur Hne Hcur) as [_ HB]. cbn [app]. split.
      * rewrite HB. by destruct cur.
      * exact HB.
    + split.
      * destruct (IH pre (cur ++ [x])) as [HA _].
        { by destruct cur. }
        { apply Forall_app. split; [done|by repeat constructor]. }
        rewrite <- HA. by rewrite <- !app_assoc.
      * destruct (IH (pre ++ cur ++ [spaceRune]) [x]) as [HA _];
          [done|by repeat constructor|].
        cbn [app] in *.
        replace (pre ++ cur ++ spaceRune :: x :: collapseWhitespace false rs)
          with ((pre ++ cur ++ [spaceRune])
                  ++ x :: collapseWhitespace false rs)
          by by rewrite <- !app_assoc.
        rewrite HA. rewrite <- !app_assoc. f_equal.
        pose proof (wordsFrom_nonempty [x] rs) as Hw.
        destruct (wordsFrom [x] rs); [by destruct Hw|]. reflexivity.
Qed.

Lemma dropLeading_collapse b rs :
  dropLeading (collapseWhitespace b rs)
  = dropLeading (collapseWhitespace false rs).
Proof.
  destruct rs as [|x rs]; [done|]. cbn. destruct (isSpaceRune x); [|done].
  by destruct b.
Qed.

Lemma normalizeWhitespace_words rs :
  normalizeWhitespace rs = joinWords (wordsFrom [] rs).
Proof.
  unfold normalizeWhitespace, trimWhitespace.
  induction rs as [|x rs IH]; [done|].
  cbn [collapseWhitespace wordsFrom]. destruct (isSpaceRune x) eqn:Hx.
  - cbn [app dropLeading]. change (isSpaceRune spaceRune) with true. cbn iota.
    by rewrite dropLeading_collapse.
  - cbn [dropLeading]. rewrite Hx.
    destruct (trimTrailing_words rs [] [x]) as [HA _];
      [done|by repeat constructor|].
    exact HA.
Qed.

Lemma fields_words p :
  join (fields p) [" "%char] = bytesOf (joinWords (wordsFrom [] (runes p))).
Proof.
  unfold fields, FieldsFunc. destruct (runes_parses p) as [Hc _].
  change (spans IsSpace [] (runes p))
    with (spans IsSpace (bytesOf []) (runes p)).
  rewrite spans_wordsFrom; [|constructor|by eapply chain_encoded].
  apply join_joinWords.
Qed.

Lemma joined_words_parse p :
  runes (bytesOf (joinWords (wordsFrom [] (runes p))))
  = joinWords (wordsFrom [] (runes p)).
Proof.
  apply runes_chain, joinWords_chain, wordsFrom_chain.
  apply runes_parses.
Qed.

Lemma trimSpace_joined p :
  trimSpace (bytesOf (joinWords (wordsFrom [] (runes p))))
  = bytesOf (joinWords (wordsFrom [] (runes p))).
Proof.
  pose proof (joined_words_parse p) as Hr.
  pose proof (wordsFrom_nonSpace [] (runes p) (List.Forall_nil _)) as Hw.
  assert (chain (joinWords (wordsFrom [] (runes p))) []) as Hc.
  { apply joinWords_chain, wordsFrom_chain, runes_parses. }
  set (ws := wordsFrom [] (runes p)) in *.
  unfold trimSpace. rewrite TrimLeftFunc_id.
  - apply TrimRightFunc_id.
    destruct (IsSpace (fst (DecodeLastRune (bytesOf (joinWords ws)))))
      eqn:Hs; [|by right].
    apply last_rune_space in Hs as (rs & x & Hx & Hsp).
    rewrite Hr in Hx.
    assert (last (joinWords ws) = Some x) as Hl by (rewrite Hx; apply last_snoc).
    apply joinWords_last in Hl; [congruence|done].
  - destruct (joinWords ws) as [|[r bs] rest] eqn:Hj; [by left|right].
    destruct Hc as (_ & Hd & _). rewrite app_nil_r in Hd.
    unfold bytesOf in *. cbn [fmap list_fmap concat snd]. rewrite Hd.
    apply (joinWords_head ws (r, bs) Hw). by rewrite Hj.
Qed.

Lemma bytes_of_strings (l : list (list ascii)) :
  list_ascii_of_string <$> (string_of_list_ascii <$> l) = l.
Proof.
  induction l as [|x l IH]; [done|]. cbn.
  by rewrite list_ascii_of_string_of_list_ascii, IH.
Qed.

Lemma cleanText_bytes text :
  list_ascii_of_string (cleanText text)
  = bytesOf (joinWords (wordsFrom [] (runes (list_ascii_of_string text)))).
Proof.
  unfold cleanText, TrimSpace, Join, Fields.
  rewrite !list_ascii_of_string_of_list_ascii.
  rewrite bytes_of_strings.
  change (list_ascii_of_string " ") with [" "%char].
  rewrite fields_words. apply trimSpace_joined.
Qed.

(** Claim C7.  [cleanText] maps the four texts of the test to the four
    results; tab, line feed, carriage return and space are white space;
    and for every text, read as the runes that [range] yields, the result
    is the text with every run of white space collapsed into one space
    and with the white space at both ends trimmed, byte for byte and rune
    for rune. *)
Theorem cleanText_normalizes :
  cleanText "  Hello   World  " = "Hello World"
  /\ cleanText (String "009" ("Test" +:+ String "010"
                  ("String" +:+ String "013" (String "010" EmptyString))))
     = "Test String"
  /\ cleanText EmptyString = EmptyString
  /\ cleanText "Normal text" = "Normal text"
  /\ Forall (fun r => IsSpace r = true) [0x09; 0x0A; 0x0D; 0x20]%N
  /\ forall text,
       list_ascii_of_string (cleanText text)
       = bytesOf (normalizeWhitespace (runes (list_ascii_of_string text)))
       /\ runes (list_ascii_of_string (cleanText text))
          = normalizeWhitespace (runes (list_ascii_of_string text)).
Proof.
  split; [by vm_compute|]. split; [by vm_compute|].
  split; [by vm_compute|]. split; [by vm_compute|].
  split; [by repeat constructor|].
  intros text. rewrite cleanText_bytes, normalizeWhitespace_words.
  split; [done|]. apply joined_words_parse.
Qed.

(** ** The callbacks *)

Lemma onArticleItem_spec now acc e :
  onArticleItem now acc e =
  if decide (cleanText (h3 e) = EmptyString) then acc
  else acc ++ [ {| Title := cleanText (h3 e); URL := href e;
                   Summary := cleanText (description e); Date := now |} ].
Proof.
  unfold onArticleItem. cbn [Title].
  destruct (String.eqb_spec (cleanText (h3 e)) EmptyString) as [Heq|Hne];
    case_decide; done.
Qed.

Lemma onArticleItem_titled now acc e :
  titled acc -> titled (onArticleItem now acc e).
Proof.
  intros H. rewrite onArticleItem_spec. case_decide; [done|].
  apply Forall_app. split; [done|]. by repeat constructor.
Qed.

Lemma foldl_onArticleItem_titled now items acc :
  titled acc -> titled (foldl (onArticleItem now) acc items).
Proof.
  revert acc. induction items as [|e items IH]; intros acc H; simpl; [done|].
  apply IH. by apply onArticleItem_titled.
Qed.

Lemma extract_titled now items : titled (extract now items).
Proof. apply foldl_onArticleItem_titled. constructor. Qed.



(** ** Frames under the handlers

    Both handlers run one function on the frame of every registered
    callback. *)

Local Abbreviation alter_all f ids l := (foldl (fun l id => alter f id l) l ids).

Section alter_all.
Context {A : Type} (f : A -> A).

Lemma alter_all_length ids (l : list A) : length (alter_all f ids l) = length l.
Proof.
  revert l. induction ids as [|c ids IH]; intros l; [done|].
  simpl. rewrite IH. apply length_alter.
Qed.


Lemma alter_all_lookup (P : A -> Prop) ids (l : list A) id x' :
  (forall x, P x -> P (f x)) ->
  alter_all f ids l !! id = Some x' ->
  exists x, l !! id = Some x /\ (P x -> P x').
Proof.
  intros HP. revert l. induction ids as [|c ids IH]; intros l Hl.
  - exists x'. done.
  - simpl in Hl. apply IH in Hl as (x1 & Hl & H1).
    destruct (decide (c = id)) as [->|Hne].
    + rewrite list_lookup_alter_eq in Hl.
      destruct (l !! id) as [x|] eqn:E; simplify_eq/=.
      exists x. split; [done|]. intros H. apply H1. by apply HP.
    + rewrite list_lookup_alter_ne in Hl by done. eauto.
Qed.
End alter_all.

Lemma stable_titled : stable (fun fr => titled (articles fr)).
Proof.
  split; intros; simpl; [|done..].
  by apply foldl_onArticleItem_titled.
Qed.

Lemma evolves_refl P fs : evolves P fs fs.
Proof. split; eauto. Qed.

Lemma evolves_trans P fs1 fs2 fs3 :
  evolves P fs1 fs2 -> evolves P fs2 fs3 -> evolves P fs1 fs3.
Proof.
  intros [L1 H1] [L2 H2]. split; [congruence|].
  intros j fr3 Hj. apply H2 in Hj as (fr2 & Hj & ?).
  apply H1 in Hj as (fr1 & Hj & ?). eauto.
Qed.

Lemma evolves_alter P f id fs :
  (forall fr, P fr -> P (f fr)) -> evolves P fs (alter f id fs).
Proof.
  intros Hf. split; [apply length_alter|].
  intros j fr' Hj. destruct (decide (id = j)) as [->|Hne].
  - rewrite list_lookup_alter_eq in Hj.
    destruct (fs !! j) as [fr|]; simplify_eq/=. eauto.
  - rewrite list_lookup_alter_ne in Hj by done. eauto.
Qed.

Lemma evolves_alter_all P f ids fs :
  (forall fr, P fr -> P (f fr)) -> evolves P fs (alter_all f ids fs).
Proof.
  intros Hf. revert fs. induction ids as [|id ids IH]; intros fs; simpl.
  - apply evolves_refl.
  - eapply evolves_trans; [|apply IH]. by apply evolves_alter.
Qed.

(** What [Visit] and the goroutine leave alone. *)
Lemma Visit_frame_rule web now url m :
  let m' := fst (Visit web now url m) in
  limiter (scraper m') = limiter (scraper m)
  /\ config (scraper m') = config (scraper m)
  /\ goroutines m' = goroutines m
  /\ AllowURLRevisit (collector (scraper m'))
     = AllowURLRevisit (collector (scraper m))
  /\ htmlCallbacks (collector (scraper m')) = htmlCallbacks (collector (scraper m))
  /\ errorCallbacks (collector (scraper m'))
     = errorCallbacks (collector (scraper m))
  /\ (requests m' = requests m \/ requests m' = requests m ++ [url]).
Proof.
  unfold Visit, requestCheck, fetch. destruct m as [[c l cfg] fs gs rq]. cbn.
  destruct (web url) as [err|[st err|items]]; cbn; [by auto 10|..];
    destruct (AllowURLRevisit c) eqn:Ha; cbn; rewrite ?Ha; auto 10;
    destruct (bool_decide (url ∈ visited c)); cbn; rewrite ?Ha; auto 10.
Qed.

Lemma Visit_evolves P web now url m :
  stable P -> evolves P (frames m) (frames (fst (Visit web now url m))).
Proof.
  intros [H1 H2 H3]. unfold Visit, requestCheck, fetch.
  destruct m as [[c l cfg] fs gs rq]. cbn.
  destruct (web url) as [err|[st err|items]]; cbn; [apply evolves_refl|..];
    destruct (AllowURLRevisit c); cbn;
    try destruct (bool_decide (url ∈ visited c)); cbn;
    first [apply evolves_refl | apply evolves_alter_all; auto].
  all: intros fr; apply H2.
Qed.

Lemma visitGoroutine_unfold web now id url m :
  visitGoroutine web now id url m =
  with_frames (alter close_done id)
    match snd (Visit web now url m) with
    | Some err =>
      with_frames
        (alter (set_scrapeErr (Errorf_w "failed to start scraping: " err)) id)
        (fst (Visit web now url m))
    | None => fst (Visit web now url m)
    end.
Proof. unfold visitGoroutine. by destruct (Visit web now url m) as [m' [e|]]. Qed.

Lemma visitGoroutine_frame_rule web now id url m :
  let m' := visitGoroutine web now id url m in
  limiter (scraper m') = limiter (scraper m)
  /\ config (scraper m') = config (scraper m)
  /\ goroutines m' = goroutines m
  /\ AllowURLRevisit (collector (scraper m'))
     = AllowURLRevisit (collector (scraper m))
  /\ htmlCallbacks (collector (scraper m')) = htmlCallbacks (collector (scraper m))
  /\ errorCallbacks (collector (scraper m'))
     = errorCallbacks (collector (scraper m))
  /\ (requests m' = requests m \/ requests m' = requests m ++ [url]).
Proof.
  cbv zeta. rewrite visitGoroutine_unfold.
  pose proof (Visit_frame_rule web now url m) as H. cbv zeta in H.
  destruct (Visit web now url m) as [m' [e|]]; exact H.
Qed.

Lemma visitGoroutine_evolves P web now id url m :
  stable P -> evolves P (frames m) (frames (visitGoroutine web now id url m)).
Proof.
  intros HP. rewrite visitGoroutine_unfold.
  pose proof (Visit_evolves P web now url m HP) as H.
  destruct HP as [H1 H2 H3].
  destruct (Visit web now url m) as [m' [e|]]; cbn in *.
  - eapply evolves_trans; [exact H|].
    eapply evolves_trans; apply evolves_alter; auto.
  - eapply evolves_trans; [exact H|]. apply evolves_alter; auto.
Qed.

Lemma visitGoroutine_done web now id url m fr' :
  frames (visitGoroutine web now id url m) !! id = Some fr' -> done fr' = true.
Proof.
  rewrite visitGoroutine_unfold. cbn. rewrite list_lookup_alter_eq.
  intros H. destruct (_ !! id); by simplify_eq/=.
Qed.

(** ** [scrapeURL] on its own *)

Lemma enter_invalid url m :
  valid url = false ->
  enter url m = (m, inr (errorString ("invalid Flipboard URL: " +:+ url))).
Proof. unfold enter, valid. intros ->. reflexivity. Qed.

Lemma enter_valid url m :
  valid url = true ->
  enter url m =
  (with_collector (OnError (length (frames m)))
     (with_collector (OnHTML (length (frames m)))
        (with_frames (fun fs => fs ++ [newFrame]) m)),
   inl (length (frames m))).
Proof. unfold enter, valid. intros ->. reflexivity. Qed.

Lemma scrapeURL_titled web now c url m :
  titled (fst (snd (scrapeURL web now c url m))).
Proof.
  unfold scrapeURL. destruct (valid url) eqn:Hv.
  2:{ rewrite enter_invalid by done. constructor. }
  rewrite enter_valid by done.
  set (m1 := with_collector _ _). set (id := length (frames m)).
  assert (titled (fst (onDone (default newFrame
            (frames (visitGoroutine web now id url m1) !! id))))) as Hd.
  { destruct (frames (visitGoroutine web now id url m1) !! id) as [fr'|] eqn:E;
      [|constructor].
    destruct (visitGoroutine_evolves _ web now id url m1 stable_titled) as [_ H].
    apply H in E as (fr & Hfr & Ht). cbn in Hfr.
    rewrite lookup_app_r, Nat.sub_diag in Hfr by done. simplify_eq/=.
    unfold onDone. destruct (scrapeErr fr'); [constructor|].
    apply Ht. constructor. }
  destruct c as [|err|err []]; first [exact Hd | constructor].
Qed.






(** ** The empty list and the cancelled call *)

(** Claim C8.  Called with an empty list, [ScrapeURLs] returns no records
    and the error [no URLs provided], which wraps nothing, for every
    context, every scraper and every configuration; it does so before
    anything else happens: the result is there under every schedule, the
    empty one included, and the store (limiter, collector, goroutines
    and requests) is the one it was given.  A list that is not empty
    does not return without its tasks having run. *)
Theorem ScrapeURLs_empty web sched ctx m :
  ScrapeURLs web sched ctx [] m
  = Some (m, ([], Some (errorString "no URLs provided")))
  /\ Error (errorString "no URLs provided") = "no URLs provided"
  /\ Unwrap (errorString "no URLs provided") = None
  /\ forall u us, ScrapeURLs web [] ctx (u :: us) m = None.
Proof.
  split; [reflexivity|]. split; [reflexivity|]. split; [reflexivity|].
  intros u us. unfold ScrapeURLs, start. cbn [exec tasks].
  reflexivity.
Qed.





(** ** The transition system *)

Lemma step_transition web ev r r' :
  step web ev r = Some r' <-> transition web ev r r'.
Proof.
  split.
  - destruct ev as [err| |i refusal|i|k now|i pick]; simpl; intros H.
    + simplify_eq. constructor.
    + destruct (slotFree r) eqn:Hs; [|done].
      destruct (firstQueued (tasks r)) eqn:Hq; simplify_eq. by constructor.
    + destruct (tasks r !! i) as [[]|] eqn:Ht; try done.
      destruct (ctx r) eqn:Hc, refusal; simplify_eq;
        eauto using transition.
    + destruct (tasks r !! i) as [[]|] eqn:Ht; try done.
      destruct (urls r !! i) as [url|] eqn:Hu; [|done].
      destruct (valid url) eqn:Hv.
      * pose proof (enter_valid url (mem r) Hv) as He.
        destruct (enter url (mem r)) as [m [id|err]] eqn:E; simplify_eq.
        replace (with_collector _ _) with (fst (enter url (mem r)))
          by (by rewrite E).
        by apply t_enter_valid.
      * rewrite enter_invalid in H by done. simplify_eq.
        by apply t_enter_invalid.
    + destruct (goroutines (mem r) !! k) as [[id url]|] eqn:Hg; simplify_eq.
      by constructor.
    + destruct (tasks r !! i) as [[| | |id|]|] eqn:Ht; try done.
      destruct (urls r !! i) as [url|] eqn:Hu; [|done].
      destruct pick; simpl in H.
      * destruct (ctx r) as [err|] eqn:Hc; simplify_eq/=.
        by eapply t_select_ctx.
      * destruct (frames (mem r) !! id) as [fr|] eqn:Hf; [|done].
        destruct (done fr) eqn:Hd; [|done]. unfold onDone in H.
        pose proof (t_select_done web i id url fr r Ht Hu Hf Hd) as T.
        destruct (scrapeErr fr); simplify_eq; exact T.
  - destruct 1 as [err r|i r Hs Hq|i refusal err r Ht Hc|i err r Ht Hc
                  |i r Ht Hc|i url r Ht Hu Hv|i url r Ht Hu Hv id
                  |k now id url r Hg|i id url err r Ht Hu Hc
                  |i id url fr r Ht Hu Hf Hd]; simpl.
    + done.
    + by rewrite Hs, Hq.
    + by rewrite Ht, Hc.
    + by rewrite Ht, Hc.
    + by rewrite Ht, Hc.
    + by rewrite Ht, Hu, enter_invalid.
    + by rewrite Ht, Hu, enter_valid.
    + by rewrite Hg.
    + by rewrite Ht, Hu, Hc.
    + rewrite Ht, Hu, Hf, Hd. unfold onDone. by destruct (scrapeErr fr).
Qed.

(** A property that holds at the start and that no move breaks holds
    throughout. *)
Lemma exec_invariant web (P : run -> Prop) :
  (forall ev r r', P r -> transition web ev r r' -> P r') ->
  forall sched r r', P r -> exec web sched r = Some r' -> P r'.
Proof.
  intros Hstep. induction sched as [|ev sched IH]; intros r r' HP; simpl.
  - by intros [= <-].
  - destruct (step web ev r) as [r1|] eqn:E; [|done].
    apply step_transition in E. eauto.
Qed.

Lemma exec_app web s1 s2 r :
  exec web (s1 ++ s2) r = exec web s1 r ≫= exec web s2.
Proof.
  revert r. induction s1 as [|ev s1 IH]; intros r; simpl; [done|].
  destruct (step web ev r); simpl; auto.
Qed.

Lemma firstQueued_lookup ts i : firstQueued ts = Some i -> ts !! i = Some Queued.
Proof.
  revert i. induction ts as [|t ts IH]; intros i; simpl; [done|].
  destruct t; simpl; [by intros [= <-]|..];
    (destruct (firstQueued ts) as [j|]; simpl; [|done];
     intros [= <-]; simpl; by apply IH).
Qed.

(** ** What holds throughout an invocation *)

Lemma with_mem_id r : with_mem (mem r) r = r.
Proof. by destruct r. Qed.

Lemma firstFailure_snoc h i o :
  firstFailure (h ++ [(i, o)])
  = match firstFailure h with Some e => Some e | None => isFailure o end.
Proof.
  unfold firstFailure. rewrite omap_app.
  destruct (omap _ h); [|done]. cbn. by destruct (isFailure o).
Qed.

Lemma recordsIn_snoc h i o : recordsIn (h ++ [(i, o)]) = recordsIn h ++ recordsOf o.
Proof.
  unfold recordsIn. rewrite fmap_app, concat_app. simpl. by rewrite app_nil_r.
Qed.

(** The group has recorded an error exactly when the group context has
    been cancelled on its account: a recorded error means a done context. *)
Lemma failure_cancels_step web ev r r' :
  (is_Some (gerr r) -> is_Some (ctx r)) ->
  transition web ev r r' -> is_Some (gerr r') -> is_Some (ctx r').
Proof.
  intros HI T. destruct T; cbn; try exact HI.
  all: try (destruct (gerr r); cbn; [exact HI|]; intros _;
            destruct (ctx r); cbn; eauto).
  - intros H. destruct (HI H) as [e ->]. cbn. eauto.
  - destruct (scrapeErr fr); cbn; [|exact HI].
    destruct (gerr r); cbn; [exact HI|]. intros _.
    destruct (ctx r); cbn; eauto.
Qed.

(** The recorded error is the first failure, and [articles] holds the
    records of the successes, in the order of return. *)
Lemma history_finish i o r :
  gerr r = firstFailure (history r) /\ collected r = recordsIn (history r) ->
  gerr (finish i o r) = firstFailure (history (finish i o r))
  /\ collected (finish i o r) = recordsIn (history (finish i o r)).
Proof.
  intros [Hg Hc]. cbn [finish gerr history collected].
  rewrite firstFailure_snoc, recordsIn_snoc, <- Hg, <- Hc.
  destruct o, (gerr r); cbn; rewrite ?app_nil_r; done.
Qed.

Lemma history_step web ev r r' :
  gerr r = firstFailure (history r) /\ collected r = recordsIn (history r) ->
  transition web ev r r' ->
  gerr r' = firstFailure (history r') /\ collected r' = recordsIn (history r').
Proof.
  intros HI T. destruct T; try exact HI; by apply history_finish.
Qed.

Lemma recorded_with_task r i t t0 :
  recorded r -> tasks r !! i = Some t0 ->
  isFinished t0 = false -> isFinished t = false ->
  recorded (with_task i t r).
Proof.
  intros HR Ht H0 H1 j o. cbn. rewrite <- (HR j o).
  destruct (decide (i = j)) as [<-|Hne].
  - rewrite list_lookup_insert_eq by (by eapply lookup_lt_Some).
    rewrite Ht. split; intros [= ->]; done.
  - by rewrite list_lookup_insert_ne.
Qed.

Lemma recorded_finish r i o t0 :
  recorded r -> tasks r !! i = Some t0 -> isFinished t0 = false ->
  recorded (finish i o r).
Proof.
  intros HR Ht H0 j o'. cbn. rewrite elem_of_app, list_elem_of_singleton, <- (HR j o').
  destruct (decide (i = j)) as [<-|Hne].
  - rewrite list_lookup_insert_eq by (by eapply lookup_lt_Some).
    rewrite Ht. split.
    + intros [= ->]. by right.
    + intros [[= ->]|[= ->]]; done.
  - rewrite list_lookup_insert_ne by done. split; [by left|].
    intros [?|[= ? ?]]; done.
Qed.

Lemma recorded_step web ev r r' :
  recorded r -> transition web ev r r' -> recorded r'.
Proof.
  intros HR T. destruct T; try exact HR;
    try (eapply recorded_finish; [| eassumption | done]; try done);
    try (eapply recorded_with_task; [| eassumption | done | done]; try done).
  eapply recorded_with_task; [done| by apply firstQueued_lookup | done | done].
Qed.

Lemma explained_finish i o r :
  explained r ->
  ((exists e, o = waitFailed e)
   \/ exists url, urls r !! i = Some url
        /\ ((exists records, o = Success records)
            \/ exists e, o = scrapeFailed url e)) ->
  explained (finish i o r).
Proof.
  intros HE Ho j o'. cbn. rewrite elem_of_app, list_elem_of_singleton.
  intros [Hin|[= -> ->]]; [by apply HE|done].
Qed.

Lemma explained_step web ev r r' :
  explained r -> transition web ev r r' -> explained r'.
Proof.
  intros HE T. destruct T; try exact HE; apply explained_finish;
    try exact HE; eauto 10.
  right. exists url. split; [done|]. destruct (scrapeErr fr); eauto.
Qed.

(** The tokens handed out are those of the tasks that got past the
    limiter. *)
Lemma filter_insert_count {A} (f : A -> bool) l i x y :
  l !! i = Some x ->
  length (List.filter f (<[i:=y]> l)) + (if f x then 1 else 0)
  = length (List.filter f l) + (if f y then 1 else 0).
Proof.
  revert i. induction l as [|a l IH]; intros [|i] H; simplify_eq/=.
  - destruct (f x), (f y); simpl; lia.
  - specialize (IH i H). destruct (f a); simpl; lia.
Qed.

Lemma filter_insert_same {A} (f : A -> bool) l i x y :
  l !! i = Some x -> f x = f y ->
  length (List.filter f (<[i:=y]> l)) = length (List.filter f l).
Proof.
  intros H E. pose proof (filter_insert_count f l i x y H) as C.
  rewrite E in C. destruct (f y); lia.
Qed.

Lemma prefix_append s t : String.prefix s (s +:+ t) = true.
Proof.
  induction s as [|a s IH]; simpl; [by destruct t|].
  by destruct (ascii_dec a a).
Qed.

Lemma waitFailed_not_served e : servedByLimiter (Finished (waitFailed e)) = false.
Proof.
  unfold waitFailed, Errorf_w, servedByLimiter, Error.
  by rewrite prefix_append.
Qed.

Lemma scrapeFailed_served url e :
  servedByLimiter (Finished (scrapeFailed url e)) = true.
Proof. reflexivity. Qed.

Lemma tokens_step web ev n0 r r' :
  tokens r = n0 + served r -> transition web ev r r' ->
  tokens r' = n0 + served r'.
Proof.
  unfold tokens, served. intros HI T.
  destruct T; cbn [mem tasks finish with_task with_mem with_ctx]; try exact HI.
  - erewrite filter_insert_same; [exact HI| by apply firstQueued_lookup|done].
  - erewrite filter_insert_same;
      [exact HI|done|by rewrite waitFailed_not_served].
  - erewrite filter_insert_same;
      [exact HI|done|by rewrite waitFailed_not_served].
  - pose proof (filter_insert_count servedByLimiter _ _ _ Passed H) as C.
    cbn in *. rewrite HI. lia.
  - erewrite filter_insert_same; [exact HI|done|done].
  - subst id. rewrite enter_valid by done. cbn.
    erewrite filter_insert_same; [exact HI|done|done].
  - destruct (visitGoroutine_frame_rule web now id url
                (with_goroutines (delete k) (mem r))) as (-> & _).
    exact HI.
  - erewrite filter_insert_same; [exact HI|done|done].
  - erewrite filter_insert_same; [exact HI|done|]. by destruct (scrapeErr fr).
Qed.

(** No request goes to a URL that fails the validation. *)
Lemma requestsValid_step web ev rq0 r r' :
  requestsValid rq0 r -> transition web ev r r' -> requestsValid rq0 r'.
Proof.
  intros HI T. destruct T; try exact HI.
  - subst id. unfold requestsValid. rewrite enter_valid by done. cbn.
    destruct HI as [HR HG]. split; [exact HR|].
    apply Forall_app. split; [done|]. by repeat constructor.
  - destruct HI as [(extra & HR & HE) HG]. unfold requestsValid.
    destruct (visitGoroutine_frame_rule web now id url
                (with_goroutines (delete k) (mem r)))
      as (_ & _ & Hg & _ & _ & _ & Hq).
    cbn [mem with_mem]. rewrite Hg. cbn. split; [|by apply Forall_delete].
    destruct Hq as [->| ->]; cbn; [eauto|].
    exists (extra ++ [url]). rewrite HR, app_assoc. split; [done|].
    apply Forall_app. split; [done|]. repeat constructor.
    by apply (Forall_lookup_1 _ _ _ _ HG H).
Qed.

Lemma stable_done_true : stable (fun fr => done fr = true).
Proof. by split. Qed.

(** A task blocked in the [select] can get out: [done] is closed or the
    goroutine that will close it is pending. *)
Lemma blockedReady_step web ev r r' :
  blockedReady r -> transition web ev r r' -> blockedReady r'.
Proof.
  intros HI T.
  assert (forall i t (r0 : run),
    mem r0 = mem r -> tasks r0 = <[i:=t]> (tasks r) ->
    (forall id, t <> Blocked id) -> blockedReady r0) as Hset.
  { intros i t r0 Hm Ht Hnb j id. rewrite Hm, Ht. intros Hj.
    apply list_lookup_insert_Some in Hj as [(-> & Heq & _)|[_ Hj]].
    - by destruct (Hnb id).
    - exact (HI _ _ Hj). }
  destruct T; try exact HI; try (by eapply Hset).
  - (* a token is taken *)
    intros j id. cbn. intros Hj.
    apply list_lookup_insert_Some in Hj as [(_ & [=] & _)|[_ Hj]].
    exact (HI _ _ Hj).
  - (* a task enters the select *)
    subst id. intros j id'. rewrite enter_valid by done. cbn. intros Hj.
    apply list_lookup_insert_Some in Hj as [(-> & [= <-] & _)|[_ Hj]].
    + exists newFrame. split; [by apply list_lookup_middle|].
      right. exists (length (goroutines (mem r))), url.
      by apply list_lookup_middle.
    + destruct (HI _ _ Hj) as (fr & Hfr & Hd). exists fr.
      split; [by apply lookup_app_l_Some|].
      destruct Hd as [?|(k & u & Hk)]; [by left|].
      right. exists k, u. by apply lookup_app_l_Some.
  - (* a goroutine runs *)
    intros j id'. cbn. intros Hj. destruct (HI _ _ Hj) as (fr & Hfr & Hd).
    set (m1 := with_goroutines (delete k) (mem r)).
    destruct (visitGoroutine_evolves (fun fr => done fr = true)
                web now id url m1 stable_done_true) as [Hlen Hev].
    destruct (visitGoroutine_frame_rule web now id url m1)
      as (_ & _ & Hg & _).
    destruct (lookup_lt_is_Some_2 (frames (visitGoroutine web now id url m1)) id')
      as [fr' Hfr'].
    { rewrite Hlen. cbn. by eapply lookup_lt_Some. }
    exists fr'. split; [done|].
    destruct (Hev _ _ Hfr') as (fr0 & Hfr0 & Hkeep). cbn in Hfr0.
    assert (fr0 = fr) by congruence. subst fr0.
    destruct Hd as [Hd|(k' & u & Hk')]; [left; auto|].
    destruct (decide (k' = k)) as [->|Hne].
    + assert (id' = id) by congruence. subst id'.
      left. by eapply visitGoroutine_done.
    + right. rewrite Hg. cbn.
      destruct (decide (k' < k)).
      * exists k', u. by rewrite list_lookup_delete_lt.
      * exists (pred k'), u. rewrite list_lookup_delete_ge by lia.
        by replace (S (pred k')) with k' by lia.
  - (* the select takes the cancellation *)
    intros j id'. cbn. intros Hj.
    apply list_lookup_insert_Some in Hj as [(_ & [=] & _)|[_ Hj]].
    exact (HI _ _ Hj).
Qed.

(** The records of the activations of this invocation, and what has been
    collected from them, all have a title. *)
Lemma titledRun_step web ev n0 r r' :
  titledRun n0 r -> transition web ev r r' -> titledRun n0 r'.
Proof.
  intros HI T.
  assert (forall i t (r0 : run),
    frames (mem r0) = frames (mem r) -> tasks r0 = <[i:=t]> (tasks r) ->
    collected r0 = collected r ->
    (forall id, t <> Blocked id) -> titledRun n0 r0) as Hset.
  { intros i t r0 Hm Ht Hc Hnb. destruct HI as (I1 & I2 & I3 & I4).
    unfold titledRun. rewrite Hm, Ht, Hc. repeat split; try done.
    intros j id Hj.
    apply list_lookup_insert_Some in Hj as [(-> & Heq & _)|[_ Hj]].
    - by destruct (Hnb id).
    - eauto. }
  destruct T; try exact HI; try (by eapply Hset).
  - (* a task enters the select *)
    subst id. destruct HI as (I1 & I2 & I3 & I4).
    unfold titledRun. rewrite enter_valid by done. cbn.
    rewrite length_app. repeat split; [lia| | |done].
    + intros id fr Hid Hl.
      apply lookup_snoc_Some in Hl as [[_ Hl]|[_ <-]]; [eauto|constructor].
    + intros j id' Hj.
      apply list_lookup_insert_Some in Hj as [(-> & [= <-] & _)|[_ Hj]];
        eauto.
  - (* a goroutine runs *)
    destruct HI as (I1 & I2 & I3 & I4).
    destruct (visitGoroutine_evolves _ web now id url
                (with_goroutines (delete k) (mem r)) stable_titled)
      as [Hlen Hev].
    unfold titledRun. cbn [mem with_mem tasks collected].
    rewrite Hlen. repeat split; try done.
    intros id' fr' Hid Hl. apply Hev in Hl as (fr & Hl & Hk). eauto.
  - (* the select takes [done] *)
    destruct HI as (I1 & I2 & I3 & I4).
    unfold titledRun. cbn. repeat split; try done.
    + intros j id' Hj.
      apply list_lookup_insert_Some in Hj as [(_ & [=] & _)|[_ Hj]]. eauto.
    + destruct (scrapeErr fr); [done|].
      apply Forall_app. split; [done|]. eapply I2; [|done]. eauto.
Qed.

(** [AllowURLRevisit], once set, stays set. *)
Lemma revisit_flag_step web ev r r' :
  AllowURLRevisit (collector (scraper (mem r))) = true ->
  transition web ev r r' ->
  AllowURLRevisit (collector (scraper (mem r'))) = true.
Proof.
  intros HI T. destruct T; try exact HI; try done.
  - subst id. rewrite enter_valid by done. exact HI.
  - destruct (visitGoroutine_frame_rule web now id url
                (with_goroutines (delete k) (mem r)))
      as (_ & _ & _ & Hf & _).
    cbn [mem with_mem]. rewrite Hf. exact HI.
Qed.

Lemma lengths_step web ev r r' :
  length (tasks r) = length (urls r) -> transition web ev r r' ->
  length (tasks r') = length (urls r').
Proof.
  intros HI T. destruct T; cbn; rewrite ?length_insert; exact HI.
Qed.

Lemma urls_step web ev r r' : transition web ev r r' -> urls r' = urls r.
Proof. by destruct 1. Qed.

Lemma ctx_done_step web ev r r' :
  is_Some (ctx r) -> transition web ev r r' -> is_Some (ctx r').
Proof.
  intros [e He] T. destruct T; cbn; rewrite ?He; cbn; eauto;
    try (destruct (gerr r); cbn; eauto).
  all: destruct (scrapeErr fr); cbn; eauto.
Qed.

(** What has been collected stays collected. *)
Lemma collected_step web ev r r' :
  transition web ev r r' -> collected r `prefix_of` collected r'.
Proof.
  destruct 1; cbn; try done; try apply prefix_app_r; try done.
  destruct (scrapeErr fr); [done|]. by apply prefix_app_r.
Qed.

Lemma collected_exec web sched r r' :
  exec web sched r = Some r' -> collected r `prefix_of` collected r'.
Proof.
  revert r. induction sched as [|ev sched IH]; intros r; simpl.
  - by intros [= <-].
  - destruct (step web ev r) as [r1|] eqn:E; [|done].
    apply step_transition, collected_step in E. intros H.
    etrans; [exact E|]. by apply IH.
Qed.

(** ** Every invocation can run to its end *)

Lemma ready_step web ev r r' : ready r -> transition web ev r r' -> ready r'.
Proof.
  intros [? ?] T. split; eauto using blockedReady_step, lengths_step.
Qed.

Lemma ready_exec web sched r r' :
  ready r -> exec web sched r = Some r' -> ready r'.
Proof. apply exec_invariant, ready_step. Qed.

Lemma config_step web ev r r' :
  transition web ev r r' ->
  config (scraper (mem r')) = config (scraper (mem r)).
Proof.
  destruct 1; try done.
  - subst id. by rewrite enter_valid.
  - destruct (visitGoroutine_frame_rule web now id url
                (with_goroutines (delete k) (mem r))) as (_ & Hc & _).
    cbn [mem with_mem]. by rewrite Hc.
Qed.

Lemma exec_cons web ev sched r r1 :
  transition web ev r r1 -> exec web (ev :: sched) r = exec web sched r1.
Proof. intros T. apply step_transition in T. simpl. by rewrite T. Qed.

Lemma returns_step web ev i t r r1 :
  transition web ev r r1 ->
  tasks r1 = <[i := t]> (tasks r) ->
  returns web i r1 -> returns web i r.
Proof.
  intros T Ht (sched & r' & o & He & Hts & Hc).
  exists (ev :: sched), r', o. split; [by rewrite (exec_cons _ _ _ _ _ T)|].
  split.
  - by rewrite Hts, Ht, list_insert_insert_eq.
  - rewrite Hc. by eapply config_step.
Qed.

Lemma returns_now web ev i o r r1 :
  transition web ev r r1 ->
  tasks r1 = <[i := Finished o]> (tasks r) ->
  returns web i r.
Proof.
  intros T Ht. exists [ev], r1, o.
  split; [by rewrite (exec_cons _ _ _ _ _ T)|]. split; [done|].
  by eapply config_step.
Qed.

Lemma blocked_returns web i id r :
  ready r -> tasks r !! i = Some (Blocked id) -> returns web i r.
Proof.
  intros HR Ht.
  assert (forall r0 fr, ready r0 -> tasks r0 !! i = Some (Blocked id) ->
            frames (mem r0) !! id = Some fr -> done fr = true ->
            returns web i r0) as Hdone.
  { intros r0 fr [_ Hlen] Ht0 Hfr Hd.
    destruct (lookup_lt_is_Some_2 (urls r0) i) as [url Hu].
    { rewrite <- Hlen. by eapply lookup_lt_Some. }
    eapply returns_now; [by eapply t_select_done|]. reflexivity. }
  destruct (proj1 HR _ _ Ht) as (fr & Hfr & [Hd|(k & url & Hk)]);
    [exact (Hdone r fr HR Ht Hfr Hd)|].
  pose proof (t_visiting web k 0%Z id url r Hk) as T.
  set (r1 := with_mem _ r) in T.
  assert (ready r1) as HR1 by (by eapply ready_step).
  destruct (proj1 HR1 i id Ht) as (fr1 & Hfr1 & _).
  eapply (returns_step _ _ i (Blocked id)); [exact T| |].
  - cbn. by rewrite list_insert_id.
  - apply (Hdone r1 fr1 HR1 Ht Hfr1).
    eapply visitGoroutine_done. exact Hfr1.
Qed.

Lemma passed_returns web i r :
  ready r -> tasks r !! i = Some Passed -> returns web i r.
Proof.
  intros HR Ht.
  destruct (lookup_lt_is_Some_2 (urls r) i) as [url Hu].
  { rewrite <- (proj2 HR). by eapply lookup_lt_Some. }
  destruct (valid url) eqn:Hv.
  - pose proof (t_enter_valid web i url r Ht Hu Hv) as T. cbv zeta in T.
    eapply returns_step; [exact T|reflexivity|].
    eapply blocked_returns; [by eapply ready_step|].
    cbn. apply list_lookup_insert_eq. by eapply lookup_lt_Some.
  - eapply returns_now; [by eapply t_enter_invalid|reflexivity].
Qed.

Lemma started_returns web i r :
  ready r -> tasks r !! i = Some Started -> returns web i r.
Proof.
  intros HR Ht. destruct (ctx r) as [err|] eqn:Hc.
  - eapply returns_now; [by eapply (t_wait_done web i None)|reflexivity].
  - pose proof (t_wait_granted web i r Ht Hc) as T.
    eapply returns_step; [exact T|reflexivity|].
    eapply passed_returns; [by eapply ready_step|].
    cbn. apply list_lookup_insert_eq. by eapply lookup_lt_Some.
Qed.

Lemma active_returns web i t r :
  ready r -> tasks r !! i = Some t -> active t = true -> returns web i r.
Proof.
  intros HR Ht Ha. destruct t; try done;
    eauto using started_returns, passed_returns, blocked_returns.
Qed.

Lemma filter_nonempty_lookup {A} (f : A -> bool) l :
  0 < length (List.filter f l) -> exists i x, l !! i = Some x /\ f x = true.
Proof.
  induction l as [|a l IH]; simpl; [lia|].
  destruct (f a) eqn:E.
  - intros _. by exists 0, a.
  - intros H. destruct (IH H) as (i & x & ? & ?). by exists (S i), x.
Qed.

(** The tasks that have started can all be brought to their return, and
    the queue is as before. *)
Lemma drain web n r :
  ready r -> count active r = n ->
  exists sched r',
    exec web sched r = Some r' /\ count active r' = 0
    /\ count isQueued r' = count isQueued r
    /\ config (scraper (mem r')) = config (scraper (mem r)).
Proof.
  revert r. induction n as [|n IH]; intros r HR Hn.
  - by exists [], r.
  - destruct (filter_nonempty_lookup active (tasks r)) as (i & t & Ht & Ha).
    { unfold count in Hn. lia. }
    destruct (active_returns web i t r HR Ht Ha) as (s1 & r1 & o & He & Hts & Hc).
    destruct (IH r1) as (s2 & r2 & He2 & Hz & Hq & Hc2).
    { by eapply ready_exec. }
    { pose proof (filter_insert_count active _ _ _ (Finished o) Ht) as C.
      unfold count in *. rewrite Hts. rewrite Ha in C. simpl in C. lia. }
    exists (s1 ++ s2), r2. rewrite exec_app, He. simpl.
    repeat split; [done|done| |congruence].
    rewrite Hq. unfold count. rewrite Hts.
    eapply filter_insert_same; [done|]. by destruct t.
Qed.

Lemma firstQueued_is_Some ts :
  0 < length (List.filter isQueued ts) -> is_Some (firstQueued ts).
Proof.
  induction ts as [|t ts IH]; simpl; [lia|].
  destruct t; simpl; eauto; intros H; destruct (IH H) as [i ->]; simpl; eauto.
Qed.

Lemma all_finished ts :
  length (List.filter active ts) = 0 -> length (List.filter isQueued ts) = 0 ->
  forallb isFinished ts = true.
Proof.
  induction ts as [|t ts IH]; simpl; [done|].
  destruct t; simpl; try done; auto.
Qed.

(** With a limit other than zero, every run can be continued to its end. *)
Lemma progress web q r :
  ready r -> count isQueued r = q ->
  ConcurrentRequests (config (scraper (mem r))) <> 0%Z ->
  exists sched r', exec web sched r = Some r' /\ over r'.
Proof.
  revert r. induction q as [|q IH]; intros r HR Hq Hn.
  - destruct (drain web _ r HR eq_refl) as (s & r1 & He & Hz & Hq1 & _).
    exists s, r1. split; [done|]. apply all_finished; [done|].
    unfold count in *. congruence.
  - destruct (drain web _ r HR eq_refl) as (s & r1 & He & Hz & Hq1 & Hc).
    assert (ready r1) as HR1 by (by eapply ready_exec).
    destruct (firstQueued_is_Some (tasks r1)) as [i Hi].
    { unfold count in *. lia. }
    assert (slotFree r1 = true) as Hs.
    { unfold slotFree. unfold count in Hz. rewrite Hz, Hc. simpl.
      apply orb_true_iff. rewrite !Z.ltb_lt. lia. }
    pose proof (t_go web i r1 Hs Hi) as T.
    destruct (IH (with_task i Started r1)) as (s2 & r2 & He2 & Ho).
    { by eapply ready_step. }
    { pose proof (filter_insert_count isQueued _ _ _ Started
                    (firstQueued_lookup _ _ Hi)) as C.
      unfold count in *. cbn in *. lia. }
    { cbn. congruence. }
    exists (s ++ Go :: s2), r2. split; [|done].
    rewrite exec_app, He. cbn [mbind option_bind].
    by rewrite (exec_cons _ _ _ _ _ T).
Qed.

(** ** The start of an invocation *)

Lemma start_tasks ctx urls m i t :
  tasks (start ctx urls m) !! i = Some t -> t = Queued.
Proof. cbn. by intros [-> _]%lookup_replicate. Qed.

Lemma filter_replicate_false {A} (f : A -> bool) n x :
  f x = false -> List.filter f (replicate n x) = [].
Proof. intros H. induction n; simpl; [done|]. by rewrite H. Qed.

Lemma start_ready ctx urls m : ready (start ctx urls m).
Proof.
  split.
  - intros i id H. by apply start_tasks in H.
  - cbn. apply length_replicate.
Qed.

Lemma start_recorded ctx urls m : recorded (start ctx urls m).
Proof.
  intros i o. split.
  - intros H. by apply start_tasks in H.
  - cbn. by intros ?%elem_of_nil.
Qed.

Lemma start_explained ctx urls m : explained (start ctx urls m).
Proof. intros i o. cbn. by intros ?%elem_of_nil. Qed.

Lemma start_tokens ctx urls m :
  tokens (start ctx urls m)
  = reserved (limiter (scraper m)) + served (start ctx urls m).
Proof.
  unfold tokens, served. cbn. rewrite filter_replicate_false by done.
  simpl. lia.
Qed.

Lemma start_requestsValid ctx urls m :
  Forall (fun g => valid (snd g) = true) (goroutines m) ->
  requestsValid (requests m) (start ctx urls m).
Proof.
  intros H. split; [|done]. exists []. by rewrite app_nil_r.
Qed.

Lemma start_titledRun ctx urls m :
  titledRun (length (frames m)) (start ctx urls m).
Proof.
  repeat split; cbn.
  - done.
  - intros id fr Hid Hl. apply lookup_lt_Some in Hl. lia.
  - intros i id H. by apply (start_tasks ctx urls m) in H.
  - constructor.
Qed.

(** An invocation on a list that is not empty is a run that is over. *)
Lemma ScrapeURLs_run web sched ctx urls m res :
  urls <> [] ->
  ScrapeURLs web sched ctx urls m = Some res <->
  exists r, exec web sched (start ctx urls m) = Some r /\ over r
            /\ res = conclude r.
Proof.
  intros Hne. unfold ScrapeURLs, over. destruct urls as [|u urls]; [done|].
  destruct (exec web sched _) as [r|]; [|by split; [|intros (? & ? & _)]].
  destruct (forallb isFinished (tasks r)) eqn:E.
  - split; [intros [= <-]; eauto|]. intros (r0 & [= <-] & _ & ->). done.
  - split; [done|]. intros (r0 & [= <-] & ? & _). congruence.
Qed.

Lemma over_finished r i :
  over r -> i < length (tasks r) -> exists o, tasks r !! i = Some (Finished o).
Proof.
  unfold over. intros Ho Hi.
  destruct (lookup_lt_is_Some_2 _ _ Hi) as [t Ht].
  rewrite forallb_forall in Ho.
  assert (isFinished t = true) as Hf.
  { apply Ho. apply list_elem_of_In. by eapply list_elem_of_lookup_2. }
  destruct t; try done. eauto.
Qed.

(** With a limit of zero [g.Go] never returns: no task ever starts. *)
Lemma zero_limit_step web ev r r' :
  ConcurrentRequests (config (scraper (mem r))) = 0%Z
  /\ Forall (fun t => t = Queued) (tasks r) ->
  transition web ev r r' ->
  ConcurrentRequests (config (scraper (mem r'))) = 0%Z
  /\ Forall (fun t => t = Queued) (tasks r').
Proof.
  intros [Hz Hq] T. rewrite (config_step _ _ _ _ T).
  pose proof Hq as Hq'. rewrite Forall_lookup in Hq'.
  destruct T as [err r|i r Hs Hi| | | | | |k now id url r Hg| |];
    try (match goal with
         | H : tasks _ !! _ = Some _ |- _ => by apply Hq' in H
         end).
  - done.
  - unfold slotFree in Hs. rewrite Hz in Hs. simpl in Hs.
    apply Z.ltb_lt in Hs. lia.
  - done.
Qed.

Lemma zero_limit_blocks web sched ctx us m :
  us <> [] -> ConcurrentRequests (config (scraper m)) = 0%Z ->
  ScrapeURLs web sched ctx us m = None.
Proof.
  intros Hne Hz.
  destruct (ScrapeURLs web sched ctx us m) as [res|] eqn:E; [|done].
  apply ScrapeURLs_run in E as (r & He & Ho & _); [|done].
  assert (ConcurrentRequests (config (scraper (mem r))) = 0%Z
          /\ Forall (fun t => t = Queued) (tasks r)) as [_ Hq].
  { eapply (exec_invariant web _ (zero_limit_step web)); [|exact He].
    split; [done|]. cbn. apply Forall_forall.
    intros t Ht. by apply elem_of_replicate in Ht as [-> _]. }
  pose proof (ready_exec web sched _ r (start_ready ctx us m) He) as [_ Hlen].
  assert (urls r = us) as Hu.
  { eapply (exec_invariant web (fun r => urls r = us)); [| |exact He]; [|done].
    intros ev r0 r1 H T. by rewrite (urls_step _ _ _ _ T). }
  destruct us as [|u us]; [done|].
  destruct (over_finished r 0 Ho) as [o H0].
  { rewrite Hlen, Hu. simpl. lia. }
  rewrite Forall_lookup in Hq. by apply Hq in H0.
Qed.

(** ** Messages *)

Lemma prefix_empty s : String.prefix EmptyString s = true.
Proof. by destruct s. Qed.

Lemma prefix_refl s : String.prefix s s = true.
Proof. induction s as [|a s IH]; simpl; [done|]. by destruct (ascii_dec a a). Qed.

Lemma prefix_extend sub s q :
  String.prefix sub s = true -> String.prefix sub (s +:+ q) = true.
Proof.
  revert s. induction sub as [|a sub IH]; intros s H.
  - apply prefix_empty.
  - destruct s as [|b s]; simpl in *; [done|].
    destruct (ascii_dec a b); [auto|done].
Qed.

Lemma Contains_here s sub : String.prefix sub s = true -> Contains s sub = true.
Proof. intros H. destruct s; cbn [Contains]; by rewrite H. Qed.

Lemma Contains_after p s sub :
  Contains s sub = true -> Contains (p +:+ s) sub = true.
Proof.
  intros H. induction p as [|a p IH]; [done|].
  change (String a p +:+ s) with (String a (p +:+ s)). cbn [Contains].
  rewrite IH. apply orb_true_r.
Qed.

Lemma Contains_before s q sub :
  Contains s sub = true -> Contains (s +:+ q) sub = true.
Proof.
  induction s as [|a s IH]; cbn [Contains].
  - rewrite orb_false_r. intros H. destruct sub; [|done].
    apply Contains_here, prefix_empty.
  - intros [H|H]%orb_true_iff.
    + apply Contains_here. by apply prefix_extend.
    + change (String a s +:+ q) with (String a (s +:+ q)). cbn [Contains].
      rewrite (IH H). apply orb_true_r.
Qed.

Lemma Contains_self s : Contains s s = true.
Proof. apply Contains_here, prefix_refl. Qed.

Lemma firstFailure_elem h e :
  firstFailure h = Some e -> exists i, (i, Failure e) ∈ h.
Proof.
  unfold firstFailure. induction h as [|[i o] h IH]; simpl; [done|].
  destruct o as [records|err]; simpl.
  - intros H. destruct (IH H) as [j Hj]. exists j. by right.
  - intros [= ->]. exists i. by left.
Qed.

Lemma firstFailure_None h :
  firstFailure h = None <-> forall i o, (i, o) ∈ h -> isFailure o = None.
Proof.
  unfold firstFailure. induction h as [|[i o] h IH]; simpl.
  - split; [|done]. by intros _ i o ?%elem_of_nil.
  - destruct o as [records|err]; simpl.
    + rewrite IH. split.
      * intros H j o [[= -> ->]|Hin]%elem_of_cons; eauto.
      * intros H j o Hin. apply (H j). by right.
    + split; [done|]. intros H. specialize (H i (Failure err)).
      simpl in H. apply H. by left.
Qed.

Lemma invalidOutcome_set r0 r i t0 t :
  invalidOutcome r -> urls r0 = urls r -> tasks r0 = <[i:=t]> (tasks r) ->
  tasks r !! i = Some t0 ->
  (forall url, urls r !! i = Some url -> valid url = false ->
     match t with
     | Blocked _ => False
     | Finished o =>
       (exists e, o = waitFailed e)
       \/ o = scrapeFailed url (errorString ("invalid Flipboard URL: " +:+ url))
     | _ => True
     end) ->
  invalidOutcome r0.
Proof.
  intros HI Hu Ht H0 Hnew j url t' Hj Hv. rewrite Hu in Hj. rewrite Ht.
  intros Hl. apply list_lookup_insert_Some in Hl as [(-> & <- & _)|[_ Hl]].
  - by apply Hnew.
  - by eapply HI.
Qed.

Lemma invalidOutcome_step web ev r r' :
  invalidOutcome r -> transition web ev r r' -> invalidOutcome r'.
Proof.
  intros HI T.
  destruct T as [err r|i r Hs Hq|i refusal err r Ht Hc|i err r Ht Hc
                |i r Ht Hc|i url r Ht Hu Hv|i url r Ht Hu Hv id
                |k now id url r Hg|i id url err r Ht Hu Hc
                |i id url fr r Ht Hu Hf Hd]; try exact HI.
  - eapply invalidOutcome_set; [exact HI|done|done|by apply firstQueued_lookup|by cbn].
  - eapply invalidOutcome_set; [exact HI|done|done|done|]. intros; left; eauto.
  - eapply invalidOutcome_set; [exact HI|done|done|done|]. intros; left; eauto.
  - eapply invalidOutcome_set; [exact HI|done|done|done|by cbn].
  - eapply invalidOutcome_set; [exact HI|done|done|done|].
    intros url' Hu' _. right. congruence.
  - eapply invalidOutcome_set; [exact HI|done|done|done|].
    intros url' Hu' Hv'. congruence.
  - eapply invalidOutcome_set; [exact HI|done|done|done|].
    intros url' Hu' Hv'. destruct (HI _ _ _ Hu' Hv' Ht).
  - eapply invalidOutcome_set; [exact HI|done|done|done|].
    intros url' Hu' Hv'. destruct (HI _ _ _ Hu' Hv' Ht).
Qed.

Lemma start_invalidOutcome ctx us m : invalidOutcome (start ctx us m).
Proof. intros i url t _ _ H. by apply start_tasks in H as ->. Qed.

(** ** The invocation as a whole *)

Lemma ScrapeURLs_returns web ctx us m :
  us <> [] -> ConcurrentRequests (config (scraper m)) <> 0%Z ->
  exists sched res, ScrapeURLs web sched ctx us m = Some res.
Proof.
  intros Hne Hn.
  destruct (progress web _ (start ctx us m) (start_ready ctx us m) eq_refl Hn)
    as (sched & r & He & Ho).
  exists sched, (conclude r). apply ScrapeURLs_run; eauto.
Qed.

Lemma start_urls web sched ctx us m r :
  exec web sched (start ctx us m) = Some r -> urls r = us.
Proof.
  apply (exec_invariant web (fun r => urls r = us)); [|done].
  intros ev r0 r1 H T. by rewrite (urls_step _ _ _ _ T).
Qed.

(** Claim C1, amended.  The error group of [ScrapeURLs] comes from
    [errgroup.WithContext], so the first task that fails cancels the
    context that all tasks share; the siblings are not left to complete.
    In every state an invocation can reach: a recorded failure means the
    context is done, and a done context stays done; under a done context
    a task that has not passed [s.limiter.Wait] fails there, leaving the
    store and the collected records untouched, and a task blocked in the
    [select] of [scrapeURL] can return with the cancellation error; what
    has been collected is never withdrawn; and, unless the limit of
    concurrent requests is zero, the invocation can run to its end. *)
Theorem failure_cancels_the_group web sched ctx0 us m r :
  exec web sched (start ctx0 us m) = Some r ->
  (is_Some (gerr r) -> is_Some (ctx r))
  /\ (forall sched' r', is_Some (ctx r) -> exec web sched' r = Some r' ->
        is_Some (ctx r'))
  /\ (forall i refusal err,
        ctx r = Some err -> tasks r !! i = Some Started ->
        step web (Wait i refusal) r = Some (finish i (waitFailed err) r)
        /\ mem (finish i (waitFailed err) r) = mem r
        /\ collected (finish i (waitFailed err) r) = collected r)
  /\ (forall i id url err,
        ctx r = Some err -> tasks r !! i = Some (Blocked id) ->
        urls r !! i = Some url ->
        step web (Select i caseCtxDone) r
        = Some (finish i
                  (scrapeFailed url (Errorf_w "scraping cancelled: " err))
                  (with_mem
                     (with_collector (set_AllowURLRevisit true) (mem r)) r)))
  /\ (forall sched' r', exec web sched' r = Some r' ->
        collected r `prefix_of` collected r')
  /\ (ConcurrentRequests (config (scraper m)) <> 0%Z ->
      exists sched' r', exec web sched' r = Some r' /\ over r').
Proof.
  intros He. split; [|split; [|split; [|split; [|split]]]].
  - revert He. apply (exec_invariant web
      (fun r => is_Some (gerr r) -> is_Some (ctx r))).
    + intros ev r0 r1 H T. by eapply failure_cancels_step.
    + cbn. by intros [? [=]].
  - intros sched' r'. apply (exec_invariant web (fun r => is_Some (ctx r))).
    intros ev r0 r1 H T. by eapply ctx_done_step.
  - intros i refusal err Hc Ht. split; [|done].
    apply step_transition. by apply t_wait_done.
  - intros i id url err Hc Ht Hu. apply step_transition.
    by eapply t_select_ctx.
  - intros sched' r'. apply collected_exec.
  - intros Hn.
    assert (config (scraper (mem r)) = config (scraper m)) as Hcfg.
    { revert He. apply (exec_invariant web
        (fun r => config (scraper (mem r)) = config (scraper m))); [|done].
      intros ev r0 r1 H T. by rewrite (config_step _ _ _ _ T). }
    eapply progress; [|reflexivity|by rewrite Hcfg].
    eapply ready_exec; [apply start_ready|exact He].
Qed.

(** An invalid URL ahead of a good one, one task at a time: once the
    first task has failed the second fails at the limiter with
    [context canceled]; no request is sent and nothing is collected,
    though the good URL on its own yields a record. *)
Lemma failed_sibling_suppresses_good_url :
  (fun r => (history r, requests (mem r), collected r)) <$>
    exec demoWeb [Go; Wait 0 None; Enter 0; Go; Wait 1 None]
      (start context.Background
         ["http://invalid-url.com"; "https://flipboard.com/a"]
         (newStore (NewMagazineScraper sequential)))
  = Some
      ([(0, scrapeFailed "http://invalid-url.com"
              (errorString "invalid Flipboard URL: http://invalid-url.com"));
        (1, waitFailed context.Canceled)],
       [], [])
  /\ (fun res => fst (snd res)) <$>
       ScrapeURLs demoWeb [Go; Wait 0 None; Enter 0; Go; Wait 1 None]
         context.Background
         ["http://invalid-url.com"; "https://flipboard.com/a"]
         (newStore (NewMagazineScraper sequential))
     = Some []
  /\ (fun res => snd res) <$>
       ScrapeURLs demoWeb
         [Go; Wait 0 None; Enter 0; Visiting 0 0; Select 0 caseDone]
         context.Background ["https://flipboard.com/a"]
         (newStore (NewMagazineScraper sequential))
     = Some ([ {| Title := "Hello World"; URL := "https://example.org/1";
                  Summary := EmptyString; Date := 0 |} ], None).
Proof. repeat split; vm_compute; reflexivity. Qed.

(** The same run, stopped when the second task has started. *)
Lemma failure_cancels_the_group_witness :
  exists r,
    exec demoWeb [Go; Wait 0 None; Enter 0; Go]
      (start context.Background
         ["http://invalid-url.com"; "https://flipboard.com/a"]
         (newStore (NewMagazineScraper sequential))) = Some r
    /\ ctx r = Some context.Canceled
    /\ step demoWeb (Wait 1 None) r
       = Some (finish 1 (waitFailed context.Canceled) r).
Proof.
  eexists. split; [vm_compute; reflexivity|]. split; [reflexivity|].
  eapply (proj1 (proj1 (proj2 (proj2
    (failure_cancels_the_group demoWeb [Go; Wait 0 None; Enter 0; Go]
       context.Background
       ["http://invalid-url.com"; "https://flipboard.com/a"]
       (newStore (NewMagazineScraper sequential)) _ _))) 1 None
       context.Canceled _ _)).
  Unshelve. all: vm_compute; reflexivity.
Defined.

(** Claim C2, amended.  [scrapeURL] rejects a URL without the prefix
    [https://flipboard.com/] with the error [invalid Flipboard URL: <url>]
    and leaves the scraper as it was; no request is ever sent to such a
    URL.  In [ScrapeURLs] the task calls [s.limiter.Wait] before
    [scrapeURL], so the limiter has handed out one token for every task
    that got past the wait, the tasks of invalid URLs among them: such a
    task ends either in the failed wait or in the invalid-URL error, and
    in the second case it has taken a token. *)
Theorem invalid_url_rejected_after_the_limiter web url :
  valid url = false ->
  (forall now c m,
     scrapeURL web now c url m
     = (m, ([], Some (errorString ("invalid Flipboard URL: " +:+ url)))))
  /\ forall sched ctx0 us m r,
       Forall (fun g => valid (snd g) = true) (goroutines m) ->
       exec web sched (start ctx0 us m) = Some r ->
       (exists extra, requests (mem r) = requests m ++ extra /\ url ∉ extra)
       /\ reserved (limiter (scraper (mem r)))
          = reserved (limiter (scraper m))
            + length (List.filter servedByLimiter (tasks r))
       /\ forall i o, us !! i = Some url ->
            tasks r !! i = Some (Finished o) ->
            (exists e, o = waitFailed e)
            \/ (o = scrapeFailed url
                      (errorString ("invalid Flipboard URL: " +:+ url))
                /\ servedByLimiter (Finished o) = true).
Proof.
  intros Hv. split.
  - intros now c m. unfold scrapeURL. by rewrite enter_invalid.
  - intros sched ctx0 us m r Hg He. split; [|split].
    + assert (requestsValid (requests m) r) as [(extra & Hr & Hx) _].
      { revert He. apply exec_invariant.
        - intros ev r0 r1 H T. by eapply requestsValid_step.
        - by apply start_requestsValid. }
      exists extra. split; [done|]. intros Hin.
      rewrite Forall_forall in Hx. apply Hx in Hin. congruence.
    + change (tokens r = reserved (limiter (scraper m)) + served r).
      revert He. apply (exec_invariant web
        (fun r => tokens r = reserved (limiter (scraper m)) + served r)).
      * intros ev r0 r1 H T. by eapply tokens_step.
      * apply start_tokens.
    + intros i o Hi Ht.
      assert (invalidOutcome r) as HI.
      { revert He. apply exec_invariant.
        - intros ev r0 r1 H T. by eapply invalidOutcome_step.
        - apply start_invalidOutcome. }
      rewrite <- (start_urls _ _ _ _ _ _ He) in Hi.
      destruct (HI _ _ _ Hi Hv Ht) as [?| ->]; [by left|by right].
Qed.

(** A new scraper has handed out no token; the task of one invalid URL
    takes one before the validation rejects the URL. *)
Lemma invalid_url_takes_a_token :
  reserved (limiter (scraper freshStore)) = 0
  /\ (fun res => (reserved (limiter (scraper (fst res))),
                  requests (fst res), snd res)) <$>
       ScrapeURLs demoWeb [Go; Wait 0 None; Enter 0] context.Background
         ["http://invalid-url.com"] freshStore
     = Some (1, [],
             ([], Some (Errorf_w "scraping error: "
                          (Errorf_w "failed to scrape http://invalid-url.com: "
                             (errorString
                                "invalid Flipboard URL: http://invalid-url.com"))))).
Proof. split; vm_compute; reflexivity. Qed.

(** The URL of the validation test, on a new scraper. *)
Lemma invalid_url_rejected_after_the_limiter_witness :
  valid "http://invalid-url.com" = false
  /\ scrapeURL demoWeb 0 NotCancelled "http://invalid-url.com" freshStore
     = (freshStore,
        ([], Some (errorString
                     ("invalid Flipboard URL: " +:+ "http://invalid-url.com")))).
Proof.
  split; [reflexivity|].
  apply (proj1 (invalid_url_rejected_after_the_limiter demoWeb
                  "http://invalid-url.com" eq_refl)).
Defined.

(** Claim C3, amended.  An invocation of [ScrapeURLs] on a list that is
    not empty returns (for a limit of concurrent requests other than
    zero), and when it returns every task has an outcome; the records are
    those of the successful tasks in the order they finished; the error is
    [nil] exactly when no task failed; otherwise it is
    [scraping error: <first failure>], wrapping the failure that came
    first, and its message contains the message of the underlying cause.
    It contains the URL when the failure comes from [scrapeURL]; a failure
    of [s.limiter.Wait] is reported without the URL. *)
Theorem ScrapeURLs_summary web ctx0 us m :
  us <> [] ->
  (ConcurrentRequests (config (scraper m)) <> 0%Z ->
   exists sched res, ScrapeURLs web sched ctx0 us m = Some res)
  /\ forall sched m' records err,
       ScrapeURLs web sched ctx0 us m = Some (m', (records, err)) ->
       exists r,
         exec web sched (start ctx0 us m) = Some r
         /\ (forall i, i < length us ->
               exists o, tasks r !! i = Some (Finished o))
         /\ (forall i o, tasks r !! i = Some (Finished o) <->
                         (i, o) ∈ history r)
         /\ records = recordsIn (history r)
         /\ (err = None <->
             forall i o, tasks r !! i = Some (Finished o) ->
                         isFailure o = None)
         /\ forall e, err = Some e -> summarizes us (history r) e.
Proof.
  intros Hne. split; [by apply ScrapeURLs_returns|].
  intros sched m' records err HS.
  apply ScrapeURLs_run in HS as (r & He & Ho & Hres); [|done].
  exists r. split; [done|].
  pose proof (ready_exec web sched _ r (start_ready ctx0 us m) He) as [_ Hlen].
  pose proof (start_urls _ _ _ _ _ _ He) as Hus.
  assert (recorded r) as HR.
  { revert He. apply exec_invariant; [|apply start_recorded].
    intros ev r0 r1 H T. by eapply recorded_step. }
  assert (gerr r = firstFailure (history r)
          /\ collected r = recordsIn (history r)) as [Hg Hc].
  { revert He. apply (exec_invariant web
      (fun r => gerr r = firstFailure (history r)
                /\ collected r = recordsIn (history r))); [|done].
    intros ev r0 r1 H T. by eapply history_step. }
  assert (explained r) as HE.
  { revert He. apply exec_invariant; [|apply start_explained].
    intros ev r0 r1 H T. by eapply explained_step. }
  unfold conclude in Hres. injection Hres as -> -> ->.
  split; [|split; [exact HR|split; [exact Hc|split]]].
  - intros i Hi. apply over_finished; [done|]. by rewrite Hlen, Hus.
  - rewrite Hg. destruct (firstFailure (history r)) as [e|] eqn:Hf.
    + split; [done|]. intros H.
      destruct (firstFailure_elem _ _ Hf) as [i Hi].
      apply HR in Hi. by apply H in Hi.
    + split; [|done]. intros _ i o Hi. apply HR in Hi.
      by eapply (proj1 (firstFailure_None _) Hf).
  - intros e. rewrite Hg.
    destruct (firstFailure (history r)) as [first|] eqn:Hf; [|done].
    intros [= <-]. destruct (firstFailure_elem _ _ Hf) as [i Hi].
    destruct (HE _ _ Hi) as [[cause Hw]|(url & Hu & [[? ?]|[cause Hs]])];
      [| done |].
    + injection Hw as ->.
      exists i, (Errorf_w "rate limiter wait failed: " cause), cause.
      repeat split; try done; [|by left].
      apply Contains_after, Contains_after, Contains_self.
    + injection Hs as ->. rewrite Hus in Hu.
      exists i, (Errorf_w ("failed to scrape " +:+ url +:+ ": ") cause), cause.
      repeat split; try done.
      * apply Contains_after, Contains_after, Contains_self.
      * right. exists url. repeat split; try done.
        apply Contains_after. cbn [Error Errorf_w].
        apply Contains_before, Contains_after, Contains_before, Contains_self.
Qed.

(** The expired context of the test: the task fails in [s.limiter.Wait],
    and the message of the error does not contain the URL. *)
Lemma limiter_failure_names_no_url :
  (fun res => snd res) <$>
    ScrapeURLs demoWeb [Go; Wait 0 None] (Some context.DeadlineExceeded)
      ["https://flipboard.com/test"] freshStore
  = Some ([], Some (Errorf_w "scraping error: "
                      (Errorf_w "rate limiter wait failed: "
                         context.DeadlineExceeded)))
  /\ Error (Errorf_w "scraping error: "
              (Errorf_w "rate limiter wait failed: " context.DeadlineExceeded))
     = "scraping error: rate limiter wait failed: context deadline exceeded"
  /\ Contains
       "scraping error: rate limiter wait failed: context deadline exceeded"
       "https://flipboard.com/test" = false.
Proof. repeat split; vm_compute; reflexivity. Qed.

(** One good URL on a new scraper. *)
Lemma ScrapeURLs_summary_witness :
  ["https://flipboard.com/a"] <> []
  /\ exists sched res,
       ScrapeURLs demoWeb sched context.Background
         ["https://flipboard.com/a"] freshStore = Some res.
Proof.
  assert (["https://flipboard.com/a"] <> ([] : list string)) as Hne by done.
  split; [exact Hne|].
  apply (proj1 (ScrapeURLs_summary demoWeb context.Background
                  ["https://flipboard.com/a"] freshStore Hne)).
  vm_compute. discriminate.
Defined.

(** ** One scraper, many calls *)






(** Claim C6.  The callback on [article.item] appends a record exactly
    when the normalised text of the [h3] is not empty, so every record
    returned by [scrapeURL], and every record returned by [ScrapeURLs],
    has a title that is not empty; the URL and the summary of a returned
    record can both be empty. *)
Theorem records_have_titles web :
  (forall now acc e,
     onArticleItem now acc e
     = if decide (cleanText (h3 e) = EmptyString) then acc
       else acc ++ [ {| Title := cleanText (h3 e); URL := href e;
                        Summary := cleanText (description e);
                        Date := now |} ])
  /\ (forall now c url m a,
        a ∈ fst (snd (scrapeURL web now c url m)) -> Title a <> EmptyString)
  /\ (forall sched ctx0 us m m' records err a,
        ScrapeURLs web sched ctx0 us m = Some (m', (records, err)) ->
        a ∈ records -> Title a <> EmptyString)
  /\ exists a,
       a ∈ fst (snd (scrapeURL demoWeb 0 NotCancelled
                       "https://flipboard.com/b" freshStore))
       /\ Title a = "B" /\ URL a = EmptyString /\ Summary a = EmptyString.
Proof.
  split; [|split; [|split]].
  - apply onArticleItem_spec.
  - intros now c url m a Hin.
    pose proof (scrapeURL_titled web now c url m) as H.
    unfold titled in H. rewrite Forall_forall in H. by apply H.
  - intros sched ctx0 us m m' records err a HS Hin.
    destruct us as [|u us].
    { cbn in HS. simplify_eq. by apply elem_of_nil in Hin. }
    apply ScrapeURLs_run in HS as (r & He & _ & Hres); [|done].
    assert (titledRun (length (frames m)) r) as (_ & _ & _ & Ht).
    { revert He. apply exec_invariant; [|apply start_titledRun].
      intros ev r0 r1 H T. by eapply titledRun_step. }
    unfold conclude in Hres. simplify_eq.
    unfold titled in Ht. rewrite Forall_forall in Ht. by apply Ht.
  - eexists. split; [vm_compute; apply list_elem_of_singleton; reflexivity|].
    by vm_compute.
Qed.

(** Claim C10.  A call of [scrapeURL] on a valid URL that returns through
    the [ctx.Done()] case of its [select] fails with the cancellation
    error and leaves [AllowURLRevisit] set on the collector of the
    scraper.  Every later use of the same scraper sees it: the revisit
    check of [Visit] lets every URL through, and the flag stays set
    across every later call of [scrapeURL] and every run of
    [ScrapeURLs].  So do the tasks running at the same time: when a task
    of [ScrapeURLs] leaves its [select] through [ctx.Done()], the flag is
    set in the store its siblings work on, for the rest of the run. *)
Theorem cancelled_scrape_opens_revisits web now err url m :
  valid url = true ->
  forall c, c = CancelledBefore err \/ c = CancelledToo err caseCtxDone ->
  let m' := fst (scrapeURL web now c url m) in
  snd (scrapeURL web now c url m)
  = ([], Some (Errorf_w "scraping cancelled: " err))
  /\ AllowURLRevisit (collector (scraper m')) = true
  /\ (forall u, requestCheck u m' = (m', None))
  /\ (forall now' c' u,
        AllowURLRevisit
          (collector (scraper (fst (scrapeURL web now' c' u m')))) = true)
  /\ (forall sched ctx0 us r,
        exec web sched (start ctx0 us m') = Some r ->
        AllowURLRevisit (collector (scraper (mem r))) = true)
  /\ (forall r i id u e,
        tasks r !! i = Some (Blocked id) -> urls r !! i = Some u ->
        ctx r = Some e ->
        exists r',
          step web (Select i caseCtxDone) r = Some r'
          /\ AllowURLRevisit (collector (scraper (mem r'))) = true
          /\ forall sched r'',
               exec web sched r' = Some r'' ->
               AllowURLRevisit (collector (scraper (mem r''))) = true).
Proof.
  intros Hv c Hc. cbv zeta.
  assert (scrapeURL web now c url m
          = onCtxDone err
              match c with
              | CancelledBefore _ =>
                spawn (length (frames m)) url (fst (enter url m))
              | _ => visitGoroutine web now (length (frames m)) url
                       (fst (enter url m))
              end) as ->.
  { unfold scrapeURL. rewrite enter_valid by done.
    by destruct Hc as [-> | ->]. }
  set (m0 := match c with CancelledBefore _ => _ | _ => _ end).
  cbn [onCtxDone fst snd].
  assert (AllowURLRevisit
            (collector (scraper (with_collector (set_AllowURLRevisit true) m0)))
          = true) as Hflag by reflexivity.
  split; [done|]. split; [exact Hflag|]. split; [|split; [|split]].
  - intros u. unfold requestCheck. by rewrite Hflag.
  - intros now' c' u. unfold scrapeURL.
    destruct (valid u) eqn:Hu.
    2:{ by rewrite enter_invalid. }
    rewrite enter_valid by done. set (m1 := with_collector (OnError _) _).
    destruct (visitGoroutine_frame_rule web now'
                (length (frames (with_collector (set_AllowURLRevisit true) m0)))
                u m1) as (_ & _ & _ & Hf & _).
    destruct c' as [|e|e []]; cbn [fst onCtxDone]; try done;
      rewrite Hf; exact Hflag.
  - intros sched ctx0 us r.
    apply (exec_invariant web
             (fun r => AllowURLRevisit (collector (scraper (mem r))) = true));
      [|exact Hflag].
    intros ev r0 r1 H T. by eapply revisit_flag_step.
  - intros r i id u e Ht Hu He. eexists. split; [|split].
    + apply step_transition. by eapply t_select_ctx.
    + reflexivity.
    + intros sched r''.
      apply (exec_invariant web
               (fun r => AllowURLRevisit (collector (scraper (mem r))) = true));
        [|reflexivity].
      intros ev r0 r1 H T. by eapply revisit_flag_step.
Qed.

(** A new scraper does not allow revisits; after one cancelled call it
    does. *)
Lemma cancelled_scrape_opens_revisits_witness :
  valid "https://flipboard.com/a" = true
  /\ AllowURLRevisit (collector (scraper freshStore)) = false
  /\ AllowURLRevisit
       (collector (scraper (fst (scrapeURL demoWeb 0
          (CancelledBefore context.Canceled) "https://flipboard.com/a"
          freshStore)))) = true.
Proof.
  split; [reflexivity|]. split; [reflexivity|].
  apply (cancelled_scrape_opens_revisits demoWeb 0 context.Canceled
           "https://flipboard.com/a" freshStore eq_refl
           (CancelledBefore context.Canceled) (or_introl eq_refl)).
Defined.
